(** * sccache.py: a shallow embedding and its checked properties

    The wrapper in [sccache.py] classifies a compiler command line
    ([parse_arguments]), preprocesses the single input, derives a key from
    the preprocessed bytes ([hash_key]), asks an S3 bucket for an object
    stored under that key ([Bucket.get]) and either materialises it
    ([CacheData.dump]) or compiles and hands the result to a detached
    worker ([cache_store]).

    Python 2 [str] values that are command-line tokens, paths and keys are
    [string]; file contents and process output are [list byte].  Whatever
    lives outside the script (the file system metadata, the wrapped
    compiler, the HTTP transport, the gzip module) is a field of [World] or
    a method of the [Gzip] interface.  The [Timer] class only contributes
    elapsed wall-clock text to the diagnostic lines, and none of its
    methods can raise on the paths of [main]; diagnostics are therefore
    recorded without their timing summary. *)

From Stdlib Require Import ZArith NArith String Ascii Strings.Byte List Lia Bool.
From Stdlib Require Import DecimalString.
From stdpp Require Import gmap strings list.
Import ListNotations.

Local Open Scope string_scope.
Local Open Scope list_scope.

(** ** Exceptions and the error monad *)

Inductive exn : Type :=
| StopIteration
| AssertionError
| IndexError
| OSError
| IOError
| TypeError
| UnboundLocalError (name : string)
| CalledProcessError (returncode : Z)
| S3ResponseError (status : Z)
| Exception (message : string).

(** [UnboundLocalError] is a subclass of [NameError] in Python. *)
Definition isinstance_NameError (e : exn) : bool :=
  match e with UnboundLocalError _ => true | _ => false end.

Inductive result (A : Type) : Type :=
| Ok (a : A)
| Raise (e : exn).
Arguments Ok {A} a.
Arguments Raise {A} e.

Definition bind {A B : Type} (m : result A) (k : A -> result B) : result B :=
  match m with
  | Ok a => k a
  | Raise e => Raise e
  end.

Declare Scope result_scope.
Delimit Scope result_scope with result.
Notation "'do' x <- m ; k" := (bind m (fun x => k))
  (at level 10, x name, m at level 100, k at level 200) : result_scope.
Local Open Scope result_scope.

(** ** String helpers standing for Python built-ins *)

(** [sep.join(parts)] *)
Fixpoint str_join (sep : string) (parts : list string) : string :=
  match parts with
  | [] => EmptyString
  | [p] => p
  | p :: ps => p ++ sep ++ str_join sep ps
  end.

(** Iterating a [str] yields its one-character strings. *)
Fixpoint chars (s : string) : list string :=
  match s with
  | EmptyString => []
  | String c s' => String c EmptyString :: chars s'
  end.

(** [x in (a, b, ...)] on strings. *)
Definition str_in (x : string) (xs : list string) : bool :=
  existsb (String.eqb x) xs.

(** [arg.startswith('-') and len(arg) != 1] *)
Definition flag_like (arg : string) : bool :=
  match arg with
  | String "-"%char (String _ _) => true
  | _ => false
  end.

(** [bool(s)] for an optional string: [None] and [''] are falsy. *)
Definition truthy (o : option string) : bool :=
  match o with
  | Some (String _ _) => true
  | _ => false
  end.

(** [str(n)] for a non-negative integer. *)
Definition str_of_N (n : N) : string :=
  NilEmpty.string_of_uint (N.to_uint n).

(** *** [os.path.splitext] (posixpath / genericpath._splitext) *)

(** [s.rfind(c)]: index of the last occurrence, as [Some i], or [None]
    for Python's [-1]. *)
Fixpoint rfind_from (c : ascii) (s : string) (i : nat) (last : option nat)
  : option nat :=
  match s with
  | EmptyString => last
  | String d s' =>
      rfind_from c s' (S i) (if Ascii.eqb c d then Some i else last)
  end.

Definition rfind (c : ascii) (s : string) : option nat :=
  rfind_from c s 0 None.

Fixpoint drop_str (n : nat) (s : string) : string :=
  match n, s with
  | O, _ => s
  | S n', String _ s' => drop_str n' s'
  | S _, EmptyString => EmptyString
  end.

Fixpoint take_str (n : nat) (s : string) : string :=
  match n, s with
  | S n', String c s' => String c (take_str n' s')
  | _, _ => EmptyString
  end.

(** The [while filenameIndex < dotIndex] loop: is there a character other
    than ['.'] among the first [n] characters of [s]? *)
Fixpoint has_non_dot (n : nat) (s : string) : bool :=
  match n, s with
  | S n', String c s' =>
      if Ascii.eqb c "."%char then has_non_dot n' s' else true
  | _, _ => false
  end.

Definition splitext (p : string) : string * string :=
  match rfind "."%char p with
  | None => (p, EmptyString)
  | Some dotIndex =>
      let filenameIndex :=
        match rfind "/"%char p with
        | None => 0%nat
        | Some sepIndex => S sepIndex
        end in
      (* dotIndex > sepIndex  <->  filenameIndex <= dotIndex *)
      if (filenameIndex <=? dotIndex)%nat then
        if has_non_dot (dotIndex - filenameIndex) (drop_str filenameIndex p)
        then (take_str dotIndex p, drop_str dotIndex p)
        else (p, EmptyString)
      else (p, EmptyString)
  end.

(** ** Module-level constants *)

Definition FILE_TYPES : gmap string string :=
  <[ ".c" := "cpp-output" ]>
  (<[ ".cc" := "c++-cpp-output" ]>
  (<[ ".cpp" := "c++-cpp-output" ]>
  (<[ ".cxx" := "c++-cpp-outout" ]> ∅))).

(** The flags of [parse_arguments] whose value is the next token and which
    are kept, with that value, in the reduced arguments. *)
Definition VALUE_FLAGS : list string :=
  [ "--param"; "-A"; "-D"; "-F"; "-G"; "-I"; "-L"; "-MF";
    "-MQ"; "-U"; "-V"; "-Xassembler"; "-Xlinker";
    "-Xpreprocessor"; "-aux-info"; "-b"; "-idirafter";
    "-iframework"; "-imacros"; "-imultilib"; "-include";
    "-install_name"; "-iprefix"; "-iquote"; "-isysroot";
    "-isystem"; "-iwithprefix"; "-iwithprefixbefore";
    "-u" ].

Definition DEP_FLAGS : list string := [ "-M"; "-MM"; "-MD"; "-MMD" ].

(** ** The classifier: [parse_arguments] *)

(** The local variables of the scanning loop. *)
Record scan_state : Type := mkScan {
  reduced_args : list string;
  input : list string;
  output : option string;
  target : option string;
  need_explicit_target : bool;
  compilation : bool
}.

Definition scan_init : scan_state :=
  mkScan [] [] None None false false.

(** [for arg in iter_args: ...], one iteration per equation.  The branches
    that call [iter_args.next()] take the following token, and raise
    [StopIteration] when there is none; [-fprofile-use] leaves the
    function with [None]. *)
Fixpoint scan (st : scan_state) (args : list string)
  : result (option scan_state) :=
  match args with
  | [] => Ok (Some st)
  | arg :: rest =>
      if arg =? "-c" then
        scan (mkScan (reduced_args st) (input st) (output st) (target st)
                     (need_explicit_target st) true) rest
      else if arg =? "-o" then
        match rest with
        | [] => Raise StopIteration
        | v :: rest' =>
            scan (mkScan (reduced_args st) (input st) (Some v) (target st)
                         (need_explicit_target st) (compilation st)) rest'
        end
      else if str_in arg VALUE_FLAGS then
        match rest with
        | [] => Raise StopIteration
        | v :: rest' =>
            scan (mkScan (reduced_args st ++ [arg; v]) (input st) (output st)
                         (target st) (need_explicit_target st)
                         (compilation st)) rest'
        end
      else if arg =? "-MT" then
        match rest with
        | [] => Raise StopIteration
        | v :: rest' =>
            scan (mkScan (reduced_args st) (input st) (output st) (Some v)
                         (need_explicit_target st) (compilation st)) rest'
        end
      else if arg =? "-fprofile-use" then
        Ok None
      else
        let need := if str_in arg DEP_FLAGS then true
                    else need_explicit_target st in
        if flag_like arg then
          scan (mkScan (reduced_args st ++ [arg]) (input st) (output st)
                       (target st) need (compilation st)) rest
        else
          scan (mkScan (reduced_args st) (input st ++ [arg]) (output st)
                       (target st) need (compilation st)) rest
  end.

(** The flags after which the loop calls [iter_args.next()]. *)
Definition consumes_value (f : string) : bool :=
  (f =? "-o") || str_in f VALUE_FLAGS || (f =? "-MT").

(** The loop runs to its end or to a [return]: no [iter_args.next()] is
    called on an exhausted iterator. *)
Definition scan_completes (args : list string) : bool :=
  match scan scan_init args with
  | Ok _ => true
  | Raise _ => false
  end.

(** The tuple returned by a successful [parse_arguments]. *)
Record invocation : Type := mkInvocation {
  inv_program : string;
  inv_input : string;
  inv_file_type : string;
  inv_output : string;
  inv_args : list string;
  inv_mt : list string;
  inv_reduced_args : list string
}.

(** [target or output], where [output] is already known to be truthy. *)
Definition target_or_output (tgt : option string) (out : string) : string :=
  match tgt with
  | Some t => if truthy (Some t) then t else out
  | None => out
  end.

(** The part of [parse_arguments] after the loop. *)
Definition classify (program : string) (args : list string)
    (st : scan_state) : option invocation :=
  match compilation st, output st, input st with
  | true, Some out, [inp] =>
      if negb (truthy (Some out)) || (inp =? "-") then None
      else
        let typ := snd (splitext inp) in
        match FILE_TYPES !! typ with
        | None => None
        | Some file_type =>
            let mt := if need_explicit_target st
                      then ["-MT"; target_or_output (target st) out]
                      else [] in
            Some (mkInvocation program inp file_type out args mt
                               (reduced_args st))
        end
  | _, _, _ => None
  end.

(** What [parse_arguments] reads from its surroundings: [os.path.exists]
    and [which.which] ([None] for [whichError]). *)
Record Lookup : Type := mkLookup {
  path_exists : string -> bool;
  which : string -> option string
}.

Definition resolve_program (lk : Lookup) (program : string) : option string :=
  if path_exists lk program then Some program else which lk program.

(** [parse_arguments(command)]; [command[0]] raises [IndexError] on an
    empty list. *)
Definition parse_arguments (lk : Lookup) (command : list string)
  : result (option invocation) :=
  match command with
  | [] => Raise IndexError
  | program :: args =>
      match resolve_program lk program with
      | None => Ok None
      | Some program' =>
          do r <- scan scan_init args;
          match r with
          | None => Ok None
          | Some st => Ok (classify program' args st)
          end
      end
  end.

(** ** The fingerprint: [hashlib.new('sha1')] and [hash_key] *)

(** SHA-1 (FIPS 180-4) on 32-bit words carried by [Z]; every addition and
    rotation is reduced to 32 bits explicitly. *)
(** The value of a byte, 0 to 255. *)
Definition byteZ (b : byte) : Z := Z.of_N (Byte.to_N b).

Module SHA1.
Local Open Scope Z_scope.

Definition mask32 (x : Z) : Z := Z.land x 0xFFFFFFFF.
Definition add32 (a b : Z) : Z := mask32 (a + b).
Definition not32 (a : Z) : Z := Z.lxor a 0xFFFFFFFF.
Definition rotl (n x : Z) : Z :=
  mask32 (Z.lor (Z.shiftl x n) (Z.shiftr x (32 - n))).

(** Big-endian bytes of the 64-bit bit length. *)
Definition be64 (n : Z) : list Z :=
  map (fun i => Z.land (Z.shiftr n (8 * i)) 0xFF) [7; 6; 5; 4; 3; 2; 1; 0].

Definition pad (msg : list Z) : list Z :=
  let l := length msg in
  let k := ((119 - l mod 64) mod 64)%nat in
  msg ++ [0x80] ++ repeat 0 k ++ be64 (8 * Z.of_nat l).

Fixpoint words (bs : list Z) : list Z :=
  match bs with
  | b0 :: b1 :: b2 :: b3 :: bs' =>
      Z.lor (Z.shiftl b0 24)
            (Z.lor (Z.shiftl b1 16) (Z.lor (Z.shiftl b2 8) b3))
      :: words bs'
  | _ => []
  end.

(** Message schedule; [r] holds the words computed so far, latest
    first. *)
Fixpoint schedule (n : nat) (r : list Z) : list Z :=
  match n with
  | O => rev r
  | S n' =>
      let w := rotl 1 (Z.lxor (Z.lxor (nth 2 r 0) (nth 7 r 0))
                              (Z.lxor (nth 13 r 0) (nth 15 r 0))) in
      schedule n' (w :: r)
  end.

Definition state : Type := Z * Z * Z * Z * Z.

Definition round_f (t : nat) (b c d : Z) : Z :=
  if (t <? 20)%nat then Z.lor (Z.land b c) (Z.land (not32 b) d)
  else if (t <? 40)%nat then Z.lxor (Z.lxor b c) d
  else if (t <? 60)%nat
       then Z.lor (Z.lor (Z.land b c) (Z.land b d)) (Z.land c d)
  else Z.lxor (Z.lxor b c) d.

Definition round_k (t : nat) : Z :=
  if (t <? 20)%nat then 0x5A827999
  else if (t <? 40)%nat then 0x6ED9EBA1
  else if (t <? 60)%nat then 0x8F1BBCDC
  else 0xCA62C1D6.

Fixpoint rounds (t : nat) (ws : list Z) (s : state) : state :=
  match ws with
  | [] => s
  | w :: ws' =>
      let '(a, b, c, d, e) := s in
      let tmp := add32 (add32 (add32 (add32 (rotl 5 a) (round_f t b c d)) e)
                              (round_k t)) w in
      rounds (S t) ws' (tmp, a, rotl 30 b, c, d)
  end.

Definition compress_block (s : state) (block : list Z) : state :=
  let '(h0, h1, h2, h3, h4) := s in
  let '(a, b, c, d, e) := rounds 0 (schedule 64 (rev block)) s in
  (add32 h0 a, add32 h1 b, add32 h2 c, add32 h3 d, add32 h4 e).

Fixpoint blocks (n : nat) (ws : list Z) (s : state) : state :=
  match n with
  | O => s
  | S n' => blocks n' (skipn 16 ws) (compress_block s (firstn 16 ws))
  end.

Definition init : state :=
  (0x67452301, 0xEFCDAB89, 0x98BADCFE, 0x10325476, 0xC3D2E1F0).

Definition digest (msg : list byte) : state :=
  let ws := words (pad (map byteZ msg)) in
  blocks (length ws / 16) ws init.

Definition hex_digit (x : Z) : ascii :=
  let d := Z.land x 0xF in
  ascii_of_N (Z.to_N (if d <? 10 then 48 + d else 87 + d)).

Definition hex8 (w : Z) (k : string) : string :=
  String (hex_digit (Z.shiftr w 28)) (String (hex_digit (Z.shiftr w 24))
 (String (hex_digit (Z.shiftr w 20)) (String (hex_digit (Z.shiftr w 16))
 (String (hex_digit (Z.shiftr w 12)) (String (hex_digit (Z.shiftr w 8))
 (String (hex_digit (Z.shiftr w 4)) (String (hex_digit w) k))))))).

Definition hex_of_state (s : state) : string :=
  let '(h0, h1, h2, h3, h4) := s in
  hex8 h0 (hex8 h1 (hex8 h2 (hex8 h3 (hex8 h4 EmptyString)))).

(** [hashlib.new('sha1')], a sequence of [update] calls whose arguments
    concatenate to [msg], then [hexdigest()]. *)
Definition hexdigest (msg : list byte) : string :=
  hex_of_state (digest msg).
End SHA1.

(** What [hash_key] reads of the program file: [os.path.getmtime] (a
    float, kept as the text [str] gives for it) and [os.path.getsize];
    [None] where the call raises [OSError]. *)
Record Stat : Type := mkStat {
  getmtime_str : string -> option string;
  getsize : string -> option N
}.

Definition from_option {A : Type} (e : exn) (o : option A) : result A :=
  match o with
  | Some a => Ok a
  | None => Raise e
  end.

(** [s[i]] *)
Definition str_index (s : string) (i : nat) : result string :=
  match String.get i s with
  | Some c => Ok (String c EmptyString)
  | None => Raise IndexError
  end.

(** The bytes passed to the five [hash.update] calls, concatenated.  The
    fourth call is [hash.update(' '.join('args'))]: its argument is the
    string literal ['args'], joined character by character. *)
Definition hash_input (mtime : string) (size : N) (program : string)
    (args : list string) (preprocessed : list byte) : list byte :=
  list_byte_of_string (mtime)
  ++ list_byte_of_string (str_of_N size)
  ++ list_byte_of_string program
  ++ list_byte_of_string (str_join " " (chars "args"))
  ++ preprocessed.

Definition hash_key (fs : Stat) (program : string) (args : list string)
    (preprocessed : list byte) : result string :=
  do mtime <- from_option OSError (getmtime_str fs program);
  do size <- from_option OSError (getsize fs program);
  let digest :=
    SHA1.hexdigest (hash_input mtime size program args preprocessed) in
  do d0 <- str_index digest 0;
  do d1 <- str_index digest 1;
  do d2 <- str_index digest 2;
  Ok (d0 ++ "/" ++ d1 ++ "/" ++ d2 ++ "/" ++ digest)%string.

(** ** The gzip module *)

(** The two uses the script makes of [gzip.GzipFile]: writing a whole
    byte string at a compression level and taking the buffer, and reading
    a buffer to its end.  Reading is streaming ([shutil.copyfileobj]), so
    a read that fails has already delivered some bytes: [gunzip] gives the
    bytes delivered and whether the stream ended cleanly.  The time stamp
    that [GzipFile] writes into the header belongs to the implementation.
    The two laws are the library's contract; [stored_gzip] below is an
    implementation of the format that satisfies them. *)
Class Gzip : Type := mkGzip {
  gzip : Z -> list byte -> list byte;
  gunzip : list byte -> list byte * bool;
  gunzip_gzip : forall level b, gunzip (gzip level b) = (b, true);
  gzip_not_nil : forall level b, gzip level b <> []
}.

(** ** [CacheData] *)

(** [bool(x)] for an optional byte string. *)
Definition nonempty (o : option (list byte)) : bool :=
  match o with
  | Some (_ :: _) => true
  | _ => false
  end.

Record CacheData : Type := mkCacheData {
  _data : option (list byte);
  _obj : option (list byte)
}.

(** [CacheData.__init__]: [assert bool(data) != bool(obj)]. *)
Definition CacheData_init (data obj : option (list byte))
  : result CacheData :=
  if xorb (nonempty data) (nonempty obj)
  then Ok (mkCacheData data obj)
  else Raise AssertionError.

(** Contents of regular files, by path. *)
Abbreviation FS := (gmap string (list byte)).

Definition fs_exists (fs : FS) (p : string) : bool :=
  match fs !! p with
  | Some _ => true
  | None => false
  end.

Section WithGzip.
Context {G : Gzip}.

(** The [data] property.  It stores the compressed bytes in [self._data]
    on first use, so the object is returned along with the value. *)
Definition data (c : CacheData) : result (list byte * CacheData) :=
  match _data c with
  | Some (b :: d) => Ok (b :: d, c)
  | _ =>
      do obj <- from_option TypeError (_obj c);
      let d := gzip 6 obj in
      Ok (d, mkCacheData (Some d) (_obj c))
  end.

(** [dump(output)].  [open(output, 'wb')] raises [IOError] where
    [can_open] is false, and truncates the file otherwise. *)
Definition dump (can_open : string -> bool) (c : CacheData)
    (output : string) (fs : FS) : FS * result unit :=
  if can_open output then
    match _obj c with
    | Some (b :: obj) => (<[output := b :: obj]> fs, Ok tt)
    | _ =>
        match _data c with
        | Some d =>
            let '(written, clean) := gunzip d in
            (<[output := written]> fs,
             if clean then Ok tt else Raise IOError)
        | None => (<[output := []]> fs, Raise TypeError)
        end
    end
  else (fs, Raise IOError).

(** [CacheData.from_object(path)] *)
Definition from_object (fs : FS) (path : string) : result CacheData :=
  do content <- from_option IOError (fs !! path);
  CacheData_init None (Some content).

(** Store, fetch, materialise: the object built from [b] gives its
    [data]; a second object built from that data is dumped to
    [output]. *)
Definition store_fetch_dump (can_open : string -> bool) (b : list byte)
    (output : string) (fs : FS) : FS * result unit :=
  match CacheData_init None (Some b) with
  | Raise e => (fs, Raise e)
  | Ok c =>
      match data c with
      | Raise e => (fs, Raise e)
      | Ok (d, _) =>
          match CacheData_init (Some d) None with
          | Raise e => (fs, Raise e)
          | Ok c' => dump can_open c' output fs
          end
      end
  end.

(** ** The world outside the script *)

Inductive url_result : Type :=
| UrlBody (body : list byte)
| UrlHTTPError (code : Z)
| UrlError.

Record World : Type := mkWorld {
  lookup : Lookup;
  stat : Stat;
  (** [os.environ] *)
  environ : gmap string string;
  (** [subprocess.call(argv)]: the files the process leaves behind, and
      its exit code or the exception of a program that cannot be
      started. *)
  subprocess_call : list string -> FS -> FS * result Z;
  (** [subprocess.check_output(argv)]: the captured output, or
      [CalledProcessError] with the exit code, or another exception. *)
  check_output : list string -> FS -> FS * result (list byte);
  (** [Popen(argv, stdin=PIPE)], [communicate(stdin)], [wait()] *)
  popen : list string -> list byte -> FS -> FS * result Z;
  (** [urllib2.urlopen(url).read()] *)
  urlopen : string -> url_result;
  (** The boto upload of [Bucket.put], after the name check. *)
  s3_put : string -> string -> list byte -> result unit;
  (** Whether [open(path, 'wb')] succeeds. *)
  can_open : string -> bool
}.

(** ** [Bucket] *)

Record Bucket : Type := mkBucket {
  _name : string;
  _status : Z
}.

(** [Bucket.__init__] *)
Definition Bucket_init (w : World) : Bucket :=
  mkBucket (default EmptyString (environ w !! "SCCACHE_BUCKET")) 0.

Definition bucket_url (name key : string) : string :=
  "http://" ++ name ++ ".s3.amazonaws.com/" ++ key.

(** [Bucket.get(key)]: the object found, if any, and the bucket with its
    new status.  Every exception inside the [try] ends in [None]. *)
Definition Bucket_get (w : World) (b : Bucket) (key : string)
  : option CacheData * Bucket :=
  if negb (truthy (Some (_name b))) then (None, mkBucket (_name b) (-1))
  else
    match urlopen w (bucket_url (_name b) key) with
    | UrlBody body =>
        match body with
        | [] => (None, mkBucket (_name b) 200)
        | _ :: _ =>
            match CacheData_init (Some body) None with
            | Ok c => (Some c, mkBucket (_name b) 200)
            | Raise _ => (None, mkBucket (_name b) 200)
            end
        end
    | UrlHTTPError code => (None, mkBucket (_name b) code)
    | UrlError => (None, mkBucket (_name b) (-1))
    end.

(** [Bucket.put(key, data)] *)
Definition Bucket_put (w : World) (b : Bucket) (key : string)
    (d : list byte) : result unit * Bucket :=
  if negb (truthy (Some (_name b)))
  then (Raise (Exception "No bucket name"), mkBucket (_name b) (-1))
  else
    match s3_put w (_name b) key d with
    | Raise (S3ResponseError st) =>
        (Raise (S3ResponseError st), mkBucket (_name b) st)
    | r => (r, mkBucket (_name b) (-1))
    end.

(** ** Diagnostics and observable steps *)

(** The lines written to [out], without their timing summary; [bytes]
    and [status] are the optional fields [status()] appends. *)
Inductive diag : Type :=
| PreprocessorFailed
| UsingCache (key output : string) (bytes : nat)
| CompilationFailed (output : string) (status : option Z)
| Caching (output key : string) (status : option Z)
| FailureCaching (output key : string) (status : Z)
| Cached (output key : string).

Inductive event : Type :=
| EvCall (argv : list string)
| EvPreprocess (argv : list string)
| EvGet (key : string) (found : option CacheData)
| EvCompile (argv : list string) (stdin : list byte)
| EvSpawn (output key : string)
| EvPut (key : string) (d : list byte)
| EvWrite (line : diag).

(** How a call of [main] ends: it returns an exit code, an exception
    leaves it, or it waits for ever. *)
Inductive outcome : Type :=
| Return (code : Z)
| Raised (e : exn)
| Blocked.

Record run : Type := mkRun {
  trace : list event;
  files : FS;
  result_of : outcome;
  (** what the detached worker of [cache_store] did *)
  worker : list event
}.

(** ** [cache_store] *)

(** The body of [do_store] after the handshake. *)
Definition do_store_upload (w : World) (c : CacheData)
    (output key : string) : list event :=
  match data c with
  | Raise _ => [EvWrite (FailureCaching output key 0)]
  | Ok (d, _) =>
      let '(r, bucket) := Bucket_put w (Bucket_init w) key d in
      match r with
      | Raise _ =>
          [EvPut key d; EvWrite (FailureCaching output key (_status bucket))]
      | Ok _ => [EvPut key d; EvWrite (Cached output key)]
      end
  end.

(** [cache_store(out, output, key)].  The worker reads the object file
    and only then sends on its end of the pipe.  The parent keeps its own
    copy of the worker's end open, so when [from_object] raises in the
    worker (an empty object file fails the assertion of [CacheData]),
    [parent_conn.recv()] never returns: the result is [None].  Past the
    handshake the parent does not look at the worker again: the result is
    what the worker goes on to do. *)
Definition cache_store (w : World) (fs : FS) (output key : string)
  : option (list event) :=
  match from_object fs output with
  | Raise _ => None
  | Ok c => Some (do_store_upload w c output key)
  end.

(** ** [main] *)

(** The two command lines [main] builds from a classified invocation. *)
Definition preprocess_argv (inv : invocation) : list string :=
  [inv_program inv; "-E"; inv_input inv] ++ inv_mt inv
  ++ inv_reduced_args inv.

Definition compile_argv (inv : invocation) : list string :=
  [inv_program inv; "-c"; "-x"; inv_file_type inv; "-"; "-o";
   inv_output inv] ++ inv_reduced_args inv.

(** From [timer.start('comp')] to the end.  [key] is [None] while the
    local variable [key] has not been assigned, [bucket] is the local
    variable [bucket]. *)
Definition main_compile (w : World) (fs : FS) (inv : invocation)
    (preprocessed : list byte) (key : option string)
    (bucket : option Bucket) (tr : list event) : run :=
  let argv := compile_argv inv in
  let tr := tr ++ [EvCompile argv preprocessed] in
  match popen w argv preprocessed fs with
  | (fs', Raise e) => mkRun tr fs' (Raised e) []
  | (fs', Ok ret) =>
      if negb (ret =? 0)%Z || negb (fs_exists fs' (inv_output inv)) then
        mkRun (tr ++ [EvWrite (CompilationFailed (inv_output inv)
                                 (_status <$> bucket))])
              fs' (Return ret) []
      else
        match key with
        | None => mkRun tr fs' (Raised (UnboundLocalError "key")) []
        | Some key =>
            let tr := tr ++ [EvSpawn (inv_output inv) key] in
            match cache_store w fs' (inv_output inv) key with
            | Some wk =>
                mkRun (tr ++ [EvWrite (Caching (inv_output inv) key
                                         (_status <$> bucket))])
                      fs' (Return 0) wk
            | None => mkRun tr fs' Blocked []
            end
        end
  end.

(** From [bucket = None] on, with the preprocessor's output at hand. *)
Definition main_lookup (w : World) (fs : FS) (inv : invocation)
    (preprocessed : list byte) (tr : list event) : run :=
  match preprocessed with
  | [] => main_compile w fs inv preprocessed None None tr
  | _ :: _ =>
      match hash_key (stat w) (inv_program inv) (inv_args inv)
                     preprocessed with
      | Raise e => mkRun tr fs (Raised e) []
      | Ok key =>
          match environ w !! "SCCACHE_RECACHE" with
          | Some _ => main_compile w fs inv preprocessed (Some key) None tr
          | None =>
              let '(cache, bucket) := Bucket_get w (Bucket_init w) key in
              let tr := tr ++ [EvGet key cache] in
              match cache with
              | Some c =>
                  match dump (can_open w) c (inv_output inv) fs with
                  | (fs', Raise e) => mkRun tr fs' (Raised e) []
                  | (fs', Ok _) =>
                      match data c with
                      | Raise e => mkRun tr fs' (Raised e) []
                      | Ok (d, _) =>
                          mkRun (tr ++ [EvWrite (UsingCache key
                                          (inv_output inv) (length d))])
                                fs' (Return 0) []
                      end
                  end
              | None =>
                  main_compile w fs inv preprocessed (Some key)
                               (Some bucket) tr
              end
          end
      end
  end.

Definition main (w : World) (fs : FS) (command : list string) : run :=
  match command with
  | [] => mkRun [] fs (Return 0) []
  | _ :: _ =>
      match parse_arguments (lookup w) command with
      | Raise e => mkRun [] fs (Raised e) []
      | Ok None =>
          match subprocess_call w command fs with
          | (fs', Ok code) => mkRun [EvCall command] fs' (Return code) []
          | (fs', Raise e) => mkRun [EvCall command] fs' (Raised e) []
          end
      | Ok (Some inv) =>
          let argv := preprocess_argv inv in
          match check_output w argv fs with
          | (fs', Raise (CalledProcessError code)) =>
              mkRun [EvPreprocess argv; EvWrite PreprocessorFailed]
                    fs' (Return code) []
          | (fs', Raise e) => mkRun [EvPreprocess argv] fs' (Raised e) []
          | (fs', Ok preprocessed) =>
              main_lookup w fs' inv preprocessed [EvPreprocess argv]
          end
      end
  end.
End WithGzip.

(** ** A gzip codec: RFC 1952 members made of stored DEFLATE blocks *)

Module StoredGzip.
Local Open Scope Z_scope.

Definition byte_of_Z (z : Z) : byte :=
  default x00 (Byte.of_N (Z.to_N (z mod 256))).

Definition le16 (z : Z) : list byte := [byte_of_Z z; byte_of_Z (z / 256)].

Definition rd16 (b0 b1 : byte) : Z := byteZ b0 + 256 * byteZ b1.

Definition le32 (z : Z) : list byte :=
  [byte_of_Z z; byte_of_Z (Z.shiftr z 8); byte_of_Z (Z.shiftr z 16);
   byte_of_Z (Z.shiftr z 24)].

(** CRC-32 (polynomial [0xEDB88320], reflected), bit by bit. *)
Definition crc_step (c : Z) : Z :=
  if Z.testbit c 0 then Z.lxor (Z.shiftr c 1) 0xEDB88320
  else Z.shiftr c 1.

Definition crc_byte (c : Z) (b : byte) : Z :=
  Nat.iter 8 crc_step (Z.lxor c (byteZ b)).

Definition crc32 (bs : list byte) : Z :=
  Z.lxor (fold_left crc_byte bs 0xFFFFFFFF) 0xFFFFFFFF.

(** The longest stored block. *)
Definition max_stored : nat := Z.to_nat 65535.

(** One stored block: BFINAL and BTYPE=00, LEN, NLEN, the bytes. *)
Definition block (final : bool) (d : list byte) : list byte :=
  (if final then x01 else x00)
  :: le16 (Z.of_nat (length d)) ++ le16 (65535 - Z.of_nat (length d)) ++ d.

Fixpoint deflate_stored (n : nat) (b : list byte) : list byte :=
  match n with
  | O => block true b
  | S n' =>
      if Z.of_nat (length b) <=? 65535 then block true b
      else block false (firstn max_stored b)
           ++ deflate_stored n' (skipn max_stored b)
  end.

Definition header (mtime : Z) : list byte :=
  [x1f; x8b; x08; x00] ++ le32 mtime ++ [x02; xff].

Definition trailer (b : list byte) : list byte :=
  le32 (crc32 b) ++ le32 (Z.of_nat (length b)).

Definition compress (mtime : Z) (level : Z) (b : list byte) : list byte :=
  header mtime ++ deflate_stored (length b) b ++ trailer b.

Fixpoint bytes_eqb (a b : list byte) : bool :=
  match a, b with
  | [], [] => true
  | x :: a', y :: b' => Byte.eqb x y && bytes_eqb a' b'
  | _, _ => false
  end.

(** Reads blocks up to the final one; gives the bytes read so far and,
    when the final block was complete, the input after it. *)
Fixpoint inflate_stored (n : nat) (inp acc : list byte)
  : list byte * option (list byte) :=
  match n with
  | O => (acc, None)
  | S n' =>
      match inp with
      | h :: l0 :: l1 :: n0 :: n1 :: rest =>
          let len := rd16 l0 l1 in
          if (rd16 n0 n1 =? 65535 - len)
             && (len <=? Z.of_nat (length rest)) then
            let acc' := (acc ++ firstn (Z.to_nat len) rest)%list in
            if Byte.eqb h x01 then (acc', Some (skipn (Z.to_nat len) rest))
            else if Byte.eqb h x00
                 then inflate_stored n' (skipn (Z.to_nat len) rest) acc'
            else (acc, None)
          else (acc, None)
      | _ => (acc, None)
      end
  end.

Definition decompress (d : list byte) : list byte * bool :=
  match d with
  | m0 :: m1 :: cm :: flg :: _ :: _ :: _ :: _ :: _ :: _ :: body =>
      if Byte.eqb m0 x1f && Byte.eqb m1 x8b && Byte.eqb cm x08
         && Byte.eqb flg x00 then
        match inflate_stored (S (length body)) body [] with
        | (out, Some rest) => (out, bytes_eqb rest (trailer out))
        | (out, None) => (out, false)
        end
      else ([], false)
  | _ => ([], false)
  end.
End StoredGzip.

(** ** Shapes of commands that are not cached *)

(** The ways an argument list fails the tests of [parse_arguments]: no
    [-c] token, no [-o] token, a number of collected inputs other than
    one, the single input [-], an extension outside [FILE_TYPES], or a
    [-fprofile-use] that the loop meets as a flag (the tokens before it
    are scanned to the end). *)
Inductive not_cacheable (args : list string) : Prop :=
| lacks_c : ~ In "-c" args -> not_cacheable args
| lacks_o : ~ In "-o" args -> not_cacheable args
| input_count (st : scan_state) :
    scan scan_init args = Ok (Some st) ->
    length (input st) <> 1%nat -> not_cacheable args
| input_stdin (st : scan_state) :
    scan scan_init args = Ok (Some st) ->
    input st = ["-"] -> not_cacheable args
| input_extension (st : scan_state) (inp : string) :
    scan scan_init args = Ok (Some st) ->
    input st = [inp] ->
    FILE_TYPES !! snd (splitext inp) = None -> not_cacheable args
| profile_use (pre post : list string) (st : scan_state) :
    args = pre ++ "-fprofile-use" :: post ->
    scan scan_init pre = Ok (Some st) -> not_cacheable args.

(** ** Kinds of steps in a run *)

(** The steps that come after the compiler has been started. *)
Definition is_report (e : event) : Prop :=
  match e with
  | EvWrite _ | EvSpawn _ _ => True
  | _ => False
  end.

(** After preprocessing, [main] looks up, compiles with the command line
    of [compile_argv], spawns and writes; it starts nothing else. *)
Definition after_preprocess (inv : invocation) (e : event) : Prop :=
  match e with
  | EvCompile argv _ => argv = compile_argv inv
  | EvPreprocess _ | EvCall _ | EvPut _ _ => False
  | _ => True
  end.

(** The same world with another upload. *)
Definition with_s3_put (w : World)
    (put : string -> string -> list byte -> result unit) : World :=
  mkWorld (lookup w) (stat w) (environ w) (subprocess_call w)
          (check_output w) (popen w) (urlopen w) put (can_open w).

(** ** Sample worlds *)

(** A machine where [cc] is found as [/usr/bin/cc]. *)
Definition sample_lookup : Lookup :=
  mkLookup (fun p => p =? "/usr/bin/cc")
           (fun p => if p =? "cc" then Some "/usr/bin/cc" else None).

Definition sample_stat : Stat :=
  mkStat (fun p => if p =? "/usr/bin/cc" then Some "1400000000.0" else None)
         (fun p => if p =? "/usr/bin/cc" then Some 12345%N else None).

(** The path following [-o] in a command line. *)
Fixpoint output_of (argv : list string) : option string :=
  match argv with
  | [] => None
  | a :: rest =>
      if a =? "-o" then
        match rest with
        | o :: _ => Some o
        | [] => None
        end
      else output_of rest
  end.

(** A compiler that exits 0 and writes the bytes [ELF] to its output. *)
Definition sample_compiler (argv : list string) (stdin : list byte) (fs : FS)
  : FS * result Z :=
  match output_of argv with
  | Some o => (<[o := list_byte_of_string "ELF"]> fs, Ok 0%Z)
  | None => (fs, Ok 1%Z)
  end.

(** [env] is the environment, [pp] what preprocessing prints, [remote]
    what the bucket URL answers, [put] what the upload does. *)
Definition sample_world_env (env : gmap string string) (pp : list byte)
    (remote : url_result) (put : result unit) : World :=
  mkWorld sample_lookup sample_stat env
          (fun _ fs => (fs, Ok 0%Z))
          (fun _ fs => (fs, Ok pp))
          sample_compiler
          (fun _ => remote)
          (fun _ _ _ => put)
          (fun _ => true).

(** A world whose bucket is named [objects]. *)
Definition sample_world : list byte -> url_result -> result unit -> World :=
  sample_world_env (<["SCCACHE_BUCKET" := "objects"]> ∅).

Definition sample_command : list string := ["cc"; "-c"; "a.c"; "-o"; "a.o"].

(** * Further definitions *)

(** ** Views of the loop and of [main] used in the statements below *)

(** What one token does to the loop: it is handled alone, or it takes the
    next token as its value, or it ends the function. *)
Inductive token_kind (st : scan_state) (a : string) : Prop :=
| token_single (st1 : scan_state) :
    (forall l, scan st (a :: l) = scan st1 l) -> token_kind st a
| token_valued (next : string -> scan_state) :
    consumes_value a = true ->
    (forall v l, scan st (a :: v :: l) = scan (next v) l) ->
    token_kind st a
| token_stops :
    (forall l, scan st (a :: l) = Ok None) -> token_kind st a.

Section RunShapes.
Context {G : Gzip}.

(** The ways through [main] from [timer.start('comp')] on. *)
Inductive compile_run (w : World) (fs : FS) (inv : invocation)
    (pp : list byte) (key : option string) (bucket : option Bucket)
    (tr : list event) : run -> Prop :=
| compile_raises (fs' : FS) (e : exn) :
    popen w (compile_argv inv) pp fs = (fs', Raise e) ->
    compile_run w fs inv pp key bucket tr
      (mkRun (tr ++ [EvCompile (compile_argv inv) pp]) fs' (Raised e) [])
| compile_fails (fs' : FS) (ret : Z) :
    popen w (compile_argv inv) pp fs = (fs', Ok ret) ->
    ret <> 0%Z \/ fs_exists fs' (inv_output inv) = false ->
    compile_run w fs inv pp key bucket tr
      (mkRun ((tr ++ [EvCompile (compile_argv inv) pp])
              ++ [EvWrite (CompilationFailed (inv_output inv)
                             (_status <$> bucket))])
             fs' (Return ret) [])
| compile_unbound (fs' : FS) :
    popen w (compile_argv inv) pp fs = (fs', Ok 0%Z) ->
    fs_exists fs' (inv_output inv) = true ->
    key = None ->
    compile_run w fs inv pp key bucket tr
      (mkRun (tr ++ [EvCompile (compile_argv inv) pp]) fs'
             (Raised (UnboundLocalError "key")) [])
| compile_stores (fs' : FS) (k : string) (wk : list event) :
    popen w (compile_argv inv) pp fs = (fs', Ok 0%Z) ->
    fs_exists fs' (inv_output inv) = true ->
    key = Some k ->
    cache_store w fs' (inv_output inv) k = Some wk ->
    compile_run w fs inv pp key bucket tr
      (mkRun (((tr ++ [EvCompile (compile_argv inv) pp])
               ++ [EvSpawn (inv_output inv) k])
              ++ [EvWrite (Caching (inv_output inv) k (_status <$> bucket))])
             fs' (Return 0) wk)
| compile_blocks (fs' : FS) (k : string) :
    popen w (compile_argv inv) pp fs = (fs', Ok 0%Z) ->
    fs_exists fs' (inv_output inv) = true ->
    key = Some k ->
    cache_store w fs' (inv_output inv) k = None ->
    compile_run w fs inv pp key bucket tr
      (mkRun ((tr ++ [EvCompile (compile_argv inv) pp])
              ++ [EvSpawn (inv_output inv) k])
             fs' Blocked []).

(** The ways through [main] once the preprocessor has printed [pp]. *)
Inductive lookup_run (w : World) (fs : FS) (inv : invocation)
    (pp : list byte) (tr : list event) : run -> Prop :=
| lookup_skipped (r : run) :
    pp = [] ->
    compile_run w fs inv pp None None tr r ->
    lookup_run w fs inv pp tr r
| lookup_no_key (e : exn) :
    pp <> [] ->
    hash_key (stat w) (inv_program inv) (inv_args inv) pp = Raise e ->
    lookup_run w fs inv pp tr (mkRun tr fs (Raised e) [])
| lookup_recache (key v : string) (r : run) :
    pp <> [] ->
    hash_key (stat w) (inv_program inv) (inv_args inv) pp = Ok key ->
    environ w !! "SCCACHE_RECACHE" = Some v ->
    compile_run w fs inv pp (Some key) None tr r ->
    lookup_run w fs inv pp tr r
| lookup_miss (key : string) (bucket : Bucket) (r : run) :
    pp <> [] ->
    hash_key (stat w) (inv_program inv) (inv_args inv) pp = Ok key ->
    environ w !! "SCCACHE_RECACHE" = None ->
    Bucket_get w (Bucket_init w) key = (None, bucket) ->
    compile_run w fs inv pp (Some key) (Some bucket)
                (tr ++ [EvGet key None]) r ->
    lookup_run w fs inv pp tr r
| lookup_hit_unreadable (key : string) (c : CacheData) (bucket : Bucket)
    (fs' : FS) (e : exn) :
    pp <> [] ->
    hash_key (stat w) (inv_program inv) (inv_args inv) pp = Ok key ->
    environ w !! "SCCACHE_RECACHE" = None ->
    Bucket_get w (Bucket_init w) key = (Some c, bucket) ->
    dump (can_open w) c (inv_output inv) fs = (fs', Raise e) ->
    lookup_run w fs inv pp tr
      (mkRun (tr ++ [EvGet key (Some c)]) fs' (Raised e) [])
| lookup_hit (key : string) (c c' : CacheData) (bucket : Bucket)
    (fs' : FS) (d : list byte) :
    pp <> [] ->
    hash_key (stat w) (inv_program inv) (inv_args inv) pp = Ok key ->
    environ w !! "SCCACHE_RECACHE" = None ->
    Bucket_get w (Bucket_init w) key = (Some c, bucket) ->
    dump (can_open w) c (inv_output inv) fs = (fs', Ok tt) ->
    data c = Ok (d, c') ->
    lookup_run w fs inv pp tr
      (mkRun ((tr ++ [EvGet key (Some c)])
              ++ [EvWrite (UsingCache key (inv_output inv) (length d))])
             fs' (Return 0) []).

(** The ways through [main]. *)
Inductive main_run (w : World) (fs : FS) (command : list string)
  : run -> Prop :=
| run_nothing :
    command = [] ->
    main_run w fs command (mkRun [] fs (Return 0) [])
| run_parse_raises (e : exn) :
    command <> [] ->
    parse_arguments (lookup w) command = Raise e ->
    main_run w fs command (mkRun [] fs (Raised e) [])
| run_passthrough (fs' : FS) (res : result Z) :
    command <> [] ->
    parse_arguments (lookup w) command = Ok None ->
    subprocess_call w command fs = (fs', res) ->
    main_run w fs command
      (mkRun [EvCall command] fs'
             (match res with Ok code => Return code | Raise e => Raised e end)
             [])
| run_preprocess_fails (inv : invocation) (fs' : FS) (code : Z) :
    parse_arguments (lookup w) command = Ok (Some inv) ->
    check_output w (preprocess_argv inv) fs
    = (fs', Raise (CalledProcessError code)) ->
    main_run w fs command
      (mkRun [EvPreprocess (preprocess_argv inv); EvWrite PreprocessorFailed]
             fs' (Return code) [])
| run_preprocess_raises (inv : invocation) (fs' : FS) (e : exn) :
    parse_arguments (lookup w) command = Ok (Some inv) ->
    check_output w (preprocess_argv inv) fs = (fs', Raise e) ->
    (forall code, e <> CalledProcessError code) ->
    main_run w fs command
      (mkRun [EvPreprocess (preprocess_argv inv)] fs' (Raised e) [])
| run_classified (inv : invocation) (fs' : FS) (pp : list byte) (r : run) :
    parse_arguments (lookup w) command = Ok (Some inv) ->
    check_output w (preprocess_argv inv) fs = (fs', Ok pp) ->
    lookup_run w fs' inv pp [EvPreprocess (preprocess_argv inv)] r ->
    main_run w fs command r.

End RunShapes.

(** The same world with another answer of the bucket. *)
Definition with_urlopen (w : World) (f : string -> url_result) : World :=
  mkWorld (lookup w) (stat w) (environ w) (subprocess_call w)
          (check_output w) (popen w) f (s3_put w) (can_open w).

(** The steps in which [main] starts a process: [subprocess.call],
    [subprocess.check_output], [subprocess.Popen], and the
    [Process(...).start()] of [cache_store]. *)
Definition starts_process (e : event) : bool :=
  match e with
  | EvCall _ | EvPreprocess _ | EvCompile _ _ | EvSpawn _ _ => true
  | _ => false
  end.

(** A world in which every command run as it is exits with [code]. *)
Definition sample_exit_world (code : Z) : World :=
  mkWorld sample_lookup sample_stat ∅
          (fun _ fs => (fs, Ok code)) (fun _ fs => (fs, Ok []))
          sample_compiler (fun _ => UrlError) (fun _ _ _ => Ok tt)
          (fun _ => true).

(** A lower-case hexadecimal digit. *)
Definition is_hex (c : ascii) : bool :=
  let n := N_of_ascii c in
  ((48 <=? n) && (n <=? 57) || (97 <=? n) && (n <=? 102))%N.

Fixpoint all_hex (s : string) : bool :=
  match s with
  | EmptyString => true
  | String c s' => is_hex c && all_hex s'
  end.

(** * The [Timer] class *)

(** The floating-point operations [Timer] uses, kept abstract: [end - t],
    [x * 1000], [a += b], [x >= 1], and the truth value of a float (false
    for zero). *)
Class Float : Type := mkFloat {
  float : Type;
  f_sub : float -> float -> float;
  f_ms : float -> float;
  f_add : float -> float -> float;
  f_ge1 : float -> bool;
  f_bool : float -> bool
}.

Module Timing.
Section Timer.
Context {F : Float}.

(** The successive values of [time.time()]. *)
Variable clock : nat -> float.

(** One [Timer] object.  [_timings] is the [OrderedDict], in insertion
    order; [_timers] maps a name to a reference to another [Timer]. *)
Record Timer : Type := mkTimer {
  _timings : list (string * float);
  _timers : gmap string nat;
  _current : option (string * float);
  _stop : option float
}.

(** [Timer.__init__] *)
Definition Timer_init : Timer := mkTimer [] ∅ None None.

(** The objects created so far (a reference is an index), the class
    attribute [Timer._stack] with its top at the end, and the number of
    [time.time()] calls made. *)
Record state : Type := mkState {
  heap : list Timer;
  _stack : list nat;
  ticks : nat
}.

Definition initial : state := mkState [] [] 0.

Inductive step_result : Type :=
| Fine (st : state)
| Fails (e : exn)
| OutOfFuel.

(** [time.time()] *)
Definition time_time (st : state) : float * state :=
  (clock (ticks st), mkState (heap st) (_stack st) (S (ticks st))).

(** The object behind a reference. *)
Definition deref (st : state) (self : nat) : Timer :=
  default Timer_init (heap st !! self).

Definition assign (st : state) (self : nat) (t : Timer) : state :=
  mkState (<[self := t]> (heap st)) (_stack st) (ticks st).

(** [Timer()] *)
Definition Timer_new (st : state) : nat * state :=
  (length (heap st),
   mkState (heap st ++ [Timer_init]) (_stack st) (ticks st)).

(** [Timer.current()] *)
Definition current (st : state) : option nat := last (_stack st).

(** [self._timings[name] += duration] or [self._timings[name] = duration] *)
Fixpoint store_timings (name : string) (duration : float)
    (l : list (string * float)) : list (string * float) :=
  match l with
  | [] => [(name, duration)]
  | (k, v) :: l' =>
      if k =? name then (k, f_add v duration) :: l'
      else (k, v) :: store_timings name duration l'
  end.

(** [Timer._store] *)
Definition _store (st : state) (self : nat) (name : string)
    (duration : float) : state :=
  let t := deref st self in
  assign st self
    (mkTimer (store_timings name duration (_timings t)) (_timers t)
             (_current t) (_stop t)).

(** [bool(x)] for [None] or a float. *)
Definition float_true (o : option float) : bool :=
  match o with
  | Some x => f_bool x
  | None => false
  end.

(** [Timer.stop(self, when)]; [fuel] bounds the depth of the calls
    [self._timers[n].stop(end)]. *)
Fixpoint stop_fuel (fuel : nat) (self : nat) (when : option float)
    (st : state) : step_result :=
  match fuel with
  | O => OutOfFuel
  | S fuel' =>
      (* end = when or time.time() *)
      let '(end_, st) :=
        match when with
        | Some t => if f_bool t then (t, st) else time_time st
        | None => time_time st
        end in
      let st :=
        match _stop (deref st self) with
        | Some s =>
            if f_bool s then
              let duration := f_ms (f_sub end_ s) in
              if f_ge1 duration then _store st self "other" duration else st
            else st
        | None => st
        end in
      match _current (deref st self) with
      | None => Fine st
      | Some (n, t) =>
          let me := deref st self in
          let st := assign st self
                      (mkTimer (_timings me) (_timers me) (_current me)
                               (Some end_)) in
          let duration := f_ms (f_sub end_ t) in
          let st := _store st self n duration in
          let inner :=
            match _timers (deref st self) !! n with
            | Some child => stop_fuel fuel' child (Some end_) st
            | None => Fine st
            end in
          match inner with
          | Fine st =>
              let me := deref st self in
              let st := assign st self
                          (mkTimer (_timings me) (_timers me) None
                                   (_stop me)) in
              match _stack st with
              | [] => Fails IndexError
              | _ :: _ =>
                  Fine (mkState (heap st) (removelast (_stack st))
                                (ticks st))
              end
          | other => other
          end
      end
  end.

(** A child is created after its parent, so the calls of [stop] on
    children go up in the heap: its length bounds their depth. *)
Definition stop (self : nat) (when : option float) (st : state)
  : step_result :=
  stop_fuel (S (length (heap st))) self when st.

(** [Timer.start(self, name)] *)
Definition start (self : nat) (name : string) (st : state) : step_result :=
  let '(now, st) := time_time st in
  match stop self (Some now) st with
  | Fine st =>
      let me := deref st self in
      let st := assign st self
                  (mkTimer (_timings me) (_timers me) (Some (name, now))
                           None) in
      Fine (mkState (heap st) (_stack st ++ [self]) (ticks st))
  | other => other
  end.

(** [Timer.start_group(self, name)]; the timer it returns is the last
    object of the heap. *)
Definition start_group (self : nat) (name : string) (st : state)
  : step_result :=
  match start self name st with
  | Fine st =>
      let '(timer, st) := Timer_new st in
      let me := deref st self in
      let st := assign st self
                  (mkTimer (_timings me) (<[name := timer]> (_timers me))
                           (_current me) (_stop me)) in
      Fine (mkState (heap st) (_stack st ++ [timer]) (ticks st))
  | other => other
  end.

(** [Timer.__getitem__]: [KeyError] when the name has no timing. *)
Fixpoint getitem (l : list (string * float)) (name : string)
  : option float :=
  match l with
  | [] => None
  | (k, v) :: l' => if k =? name then Some v else getitem l' name
  end.

(** A program over timers: the calls a client can make. *)
Inductive call : Type :=
| CallNew
| CallStart (self : nat) (name : string)
| CallStartGroup (self : nat) (name : string)
| CallStop (self : nat) (when : option float).

(** A call on a reference that no [Timer()] has returned cannot be
    written in Python; it is skipped. *)
Definition do_call (c : call) (st : state) : step_result :=
  match c with
  | CallNew => Fine (snd (Timer_new st))
  | CallStart self name =>
      if (self <? length (heap st))%nat then start self name st else Fine st
  | CallStartGroup self name =>
      if (self <? length (heap st))%nat then start_group self name st
      else Fine st
  | CallStop self when =>
      if (self <? length (heap st))%nat then stop self when st else Fine st
  end.

Fixpoint do_calls (cs : list call) (st : state) : step_result :=
  match cs with
  | [] => Fine st
  | c :: cs' =>
      match do_call c st with
      | Fine st' => do_calls cs' st'
      | other => other
      end
  end.

(** The number of timers with a phase going on. *)
Fixpoint running (h : list Timer) : nat :=
  match h with
  | [] => 0
  | t :: h' => (match _current t with Some _ => 1 | None => 0 end) + running h'
  end.

(** The names with a timing, in the order of the [OrderedDict]. *)
Definition keys (t : Timer) : list string := map fst (_timings t).

(** References go from a timer to timers created after it. *)
Definition heap_ok (h : list Timer) : Prop :=
  forall i t n c,
    h !! i = Some t -> _timers t !! n = Some c ->
    (i < c < length h)%nat.

(** Whether a phase is going on in a timer. *)
Definition busy (t : Timer) : nat :=
  match _current t with Some _ => 1 | None => 0 end.

(** What [stop] may do to the state when called on [self]: the heap keeps
    its length and its references, objects created before [self] are
    untouched, timings only gain names at their end, a phase is only ever
    ended, and the stack loses as many entries as phases have ended. *)
Record evolves (self : nat) (st st' : state) : Prop := mkEvolves {
  ev_length : length (heap st') = length (heap st);
  ev_timers : forall i, _timers (deref st' i) = _timers (deref st i);
  ev_before : forall i, (i < self)%nat -> heap st' !! i = heap st !! i;
  ev_keys : forall i, keys (deref st i) `prefix_of` keys (deref st' i);
  ev_current : forall i, _current (deref st' i) = _current (deref st i)
                         \/ _current (deref st' i) = None;
  ev_count : (length (_stack st') + running (heap st)
              = length (_stack st) + running (heap st'))%nat;
  ev_stack : _stack st' `prefix_of` _stack st
}.

(** The invariant of the module: references go upwards, and no more
    phases are going on than the stack has entries. *)
Definition inv (st : state) : Prop :=
  heap_ok (heap st) /\ (running (heap st) <= length (_stack st))%nat.

End Timer.
End Timing.

(** Times in whole milliseconds, for concrete runs. *)
Definition zfloat : Float :=
  mkFloat Z Z.sub (fun x => (x * 1000)%Z) Z.add (fun x => (1 <=? x)%Z)
          (fun x => negb (x =? 0)%Z).


(** * Properties *)

(** ** The stored-block codec satisfies the gzip contract *)

Module StoredGzipFacts.
Import StoredGzip.
Local Open Scope Z_scope.

Lemma byteZ_byte_of_Z (z : Z) : byteZ (byte_of_Z z) = z mod 256.
Proof.
  unfold byteZ, byte_of_Z.
  assert (Hb : 0 <= z mod 256 < 256) by (apply Z.mod_pos_bound; lia).
  pose proof (Byte.to_of_N_option_map (Z.to_N (z mod 256))) as H.
  destruct (N.leb_spec (Z.to_N (z mod 256)) 255) as [_ | Hgt]; [| lia].
  destruct (Byte.of_N (Z.to_N (z mod 256))) as [b |]; simpl in *;
    [| discriminate].
  injection H as ->. lia.
Qed.

Lemma rd16_le16 (z : Z) :
  0 <= z < 65536 -> rd16 (byte_of_Z z) (byte_of_Z (z / 256)) = z.
Proof.
  intros Hz. unfold rd16. rewrite !byteZ_byte_of_Z.
  rewrite (Z.mod_small (z / 256)).
  - pose proof (Z.div_mod z 256). lia.
  - split; [apply Z.div_pos; lia | apply Z.div_lt_upper_bound; lia].
Qed.

Lemma max_stored_Z : Z.of_nat max_stored = 65535.
Proof. reflexivity. Qed.

Lemma bytes_eqb_refl (a : list byte) : bytes_eqb a a = true.
Proof.
  induction a as [| x a IH]; simpl; [reflexivity |].
  rewrite IH, Byte.byte_dec_lb by reflexivity. reflexivity.
Qed.

(** Reading one stored block written by [block]. *)
Lemma inflate_block (final : bool) (d rest acc : list byte) (n : nat) :
  Z.of_nat (length d) <= 65535 ->
  inflate_stored (S n) (block final d ++ rest) acc =
  if final then ((acc ++ d)%list, Some rest)
  else inflate_stored n rest (acc ++ d)%list.
Proof.
  intros Hlen. unfold block, le16.
  cbn [app inflate_stored].
  rewrite !rd16_le16 by lia.
  rewrite Z.eqb_refl, length_app. cbn [andb].
  destruct (Z.leb_spec (Z.of_nat (length d))
                       (Z.of_nat (length d + length rest))) as [_ | Hlt];
    [| lia].
  rewrite Nat2Z.id, firstn_app, Nat.sub_diag, firstn_all, firstn_O, app_nil_r.
  rewrite skipn_app, Nat.sub_diag, skipn_all, skipn_O. cbn [app].
  destruct final; reflexivity.
Qed.

Lemma inflate_deflate (n : nat) :
  forall (b rest acc : list byte) (m : nat),
    Z.of_nat (length b) <= 65535 * Z.of_nat (S n) ->
    (n < m)%nat ->
    inflate_stored m (deflate_stored n b ++ rest) acc
    = ((acc ++ b)%list, Some rest).
Proof.
  induction n as [| n IH]; intros b rest acc m Hlen Hm;
    (destruct m as [| m]; [lia |]); cbn [deflate_stored].
  - rewrite inflate_block by lia. reflexivity.
  - destruct (Z.leb_spec (Z.of_nat (length b)) 65535) as [Hle | Hgt].
    + rewrite inflate_block by lia. reflexivity.
    + rewrite <- app_assoc, inflate_block.
      * rewrite IH.
        -- rewrite <- app_assoc, firstn_skipn. reflexivity.
        -- rewrite length_skipn. pose proof max_stored_Z. lia.
        -- lia.
      * rewrite length_firstn. pose proof max_stored_Z. lia.
Qed.

Lemma decompress_compress (mtime level : Z) (b : list byte) :
  decompress (compress mtime level b) = (b, true).
Proof.
  unfold compress, header, le32, decompress. cbn [app].
  cbn [Byte.eqb]. rewrite !Byte.byte_dec_lb by reflexivity. cbn [andb].
  rewrite inflate_deflate.
  - cbn [app]. rewrite bytes_eqb_refl. reflexivity.
  - lia.
  - rewrite length_app.
    assert (length b <= length (deflate_stored (length b) b))%nat; [| lia].
    generalize (length b) at 2 as n. intros n. revert b.
    induction n as [| n IH]; intros b; cbn [deflate_stored].
    + unfold block. cbn [length]. rewrite !length_app. lia.
    + destruct (Z.of_nat (length b) <=? 65535).
      * unfold block. cbn [length]. rewrite !length_app. lia.
      * rewrite length_app. specialize (IH (skipn max_stored b)).
        rewrite length_skipn in IH.
        assert (length (block false (firstn max_stored b))
                >= length (firstn max_stored b))%nat
          by (unfold block; cbn [length]; rewrite !length_app; lia).
        rewrite length_firstn in *. lia.
Qed.

Lemma compress_not_nil (mtime level : Z) (b : list byte) :
  compress mtime level b <> [].
Proof. unfold compress, header. cbn [app]. discriminate. Qed.
End StoredGzipFacts.

(** The codec as an instance of the interface; [mtime] is the time stamp
    of the member header. *)
Definition stored_gzip (mtime : Z) : Gzip :=
  mkGzip (StoredGzip.compress mtime) StoredGzip.decompress
         (StoredGzipFacts.decompress_compress mtime)
         (StoredGzipFacts.compress_not_nil mtime).

(** ** The library models on known values *)

Example sha1_abc :
  SHA1.hexdigest (list_byte_of_string "abc")
  = "a9993e364706816aba3e25717850c26c9cd0d89d".
Proof. vm_compute. reflexivity. Qed.

Example sha1_empty :
  SHA1.hexdigest [] = "da39a3ee5e6b4b0d3255bfef95601890afd80709".
Proof. vm_compute. reflexivity. Qed.

Example sha1_two_blocks :
  SHA1.hexdigest (list_byte_of_string
    "abcdbcdecdefdefgefghfghighijhijkijkljklmklmnlmnomnopnopq")
  = "84983e441c3bd26ebaae4aa1f95129e5e54670f1".
Proof. vm_compute. reflexivity. Qed.

Example crc32_check :
  StoredGzip.crc32 (list_byte_of_string "123456789") = 0xCBF43926%Z.
Proof. vm_compute. reflexivity. Qed.

Example splitext_samples :
  splitext "a.c" = ("a", ".c") /\
  splitext "dir.d/a" = ("dir.d/a", EmptyString) /\
  splitext "dir/.profile" = ("dir/.profile", EmptyString) /\
  splitext "x/..a.tar.cxx" = ("x/..a.tar", ".cxx").
Proof. repeat split. Qed.

(** ** Recognized source kinds *)

(** C8: the mapping sends [.c] to the C tag and [.cc], [.cpp] to the C++
    tag, but the entry for [.cxx] is the string [c++-cpp-outout], which
    differs from the tag of [.cc]. *)
Theorem FILE_TYPES_cxx_differs :
  FILE_TYPES !! ".c" = Some "cpp-output" /\
  FILE_TYPES !! ".cc" = Some "c++-cpp-output" /\
  FILE_TYPES !! ".cpp" = Some "c++-cpp-output" /\
  FILE_TYPES !! ".cxx" = Some "c++-cpp-outout" /\
  FILE_TYPES !! ".cxx" <> FILE_TYPES !! ".cc".
Proof. vm_compute. repeat split; discriminate. Qed.

(** ** The fingerprint *)

Lemma hexdigest_index (msg : list byte) :
  exists c0 c1 c2 rest,
    SHA1.hexdigest msg = String c0 (String c1 (String c2 rest)).
Proof.
  unfold SHA1.hexdigest, SHA1.hex_of_state.
  destruct (SHA1.digest msg) as [[[[h0 h1] h2] h3] h4].
  unfold SHA1.hex8 at 1. eauto.
Qed.

(** The key is the digest behind its first three characters. *)
Lemma hash_key_ok (fs : Stat) (program : string) (args : list string)
    (preprocessed : list byte) (mtime : string) (size : N) :
  getmtime_str fs program = Some mtime ->
  getsize fs program = Some size ->
  exists c0 c1 c2 rest,
    SHA1.hexdigest (hash_input mtime size program args preprocessed)
    = String c0 (String c1 (String c2 rest)) /\
    hash_key fs program args preprocessed
    = Ok (String c0 (String "/" (String c1 (String "/" (String c2
           (String "/" (String c0 (String c1 (String c2 rest))))))))).
Proof.
  intros Hm Hs. unfold hash_key. rewrite Hm, Hs. cbn [from_option bind].
  destruct (hexdigest_index
              (hash_input mtime size program args preprocessed))
    as (c0 & c1 & c2 & rest & ->).
  exists c0, c1, c2, rest. split; reflexivity.
Qed.

(** C1: the five [update] calls feed the modification time, the size, the
    path, the constant text [a r g s] and the preprocessed bytes; the
    argument list is not among them, so two argument lists give the same
    hashed bytes and the same key. *)
Theorem hash_key_ignores_args (fs : Stat) (program : string)
    (args1 args2 : list string) (preprocessed : list byte)
    (mtime : string) (size : N) :
  hash_input mtime size program args1 preprocessed
  = (list_byte_of_string mtime ++ list_byte_of_string (str_of_N size)
     ++ list_byte_of_string program ++ list_byte_of_string "a r g s"
     ++ preprocessed)%list /\
  hash_input mtime size program args1 preprocessed
  = hash_input mtime size program args2 preprocessed /\
  hash_key fs program args1 preprocessed
  = hash_key fs program args2 preprocessed.
Proof. repeat split. Qed.

(** Two command lines that differ in their optimisation level get the
    same key. *)
Example hash_key_O0_O2 :
  hash_key sample_stat "/usr/bin/cc" ["-c"; "a.c"; "-o"; "a.o"; "-O0"]
           (list_byte_of_string "int x;")
  = Ok "5/2/f/52fca8d74bce7e5ab6814ffc57f079ea3ad21104" /\
  hash_key sample_stat "/usr/bin/cc" ["-c"; "a.c"; "-o"; "a.o"; "-O2"]
           (list_byte_of_string "int x;")
  = Ok "5/2/f/52fca8d74bce7e5ab6814ffc57f079ea3ad21104".
Proof. vm_compute. split; reflexivity. Qed.

(** C6: the key depends on the file system only through the program's
    modification time and size; two evaluations that see the same two
    values, with the same path, arguments and preprocessed bytes, both
    return the same key. *)
Theorem hash_key_deterministic (fs1 fs2 : Stat) (program : string)
    (args : list string) (preprocessed : list byte)
    (mtime : string) (size : N) :
  getmtime_str fs1 program = Some mtime ->
  getsize fs1 program = Some size ->
  getmtime_str fs2 program = Some mtime ->
  getsize fs2 program = Some size ->
  exists key,
    hash_key fs1 program args preprocessed = Ok key /\
    hash_key fs2 program args preprocessed = Ok key.
Proof.
  intros Hm1 Hs1 Hm2 Hs2.
  destruct (hash_key_ok fs1 program args preprocessed mtime size Hm1 Hs1)
    as (c0 & c1 & c2 & rest & Hd & Hk1).
  destruct (hash_key_ok fs2 program args preprocessed mtime size Hm2 Hs2)
    as (d0 & d1 & d2 & rest' & Hd' & Hk2).
  rewrite Hd in Hd'. injection Hd' as <- <- <- <-.
  eexists. split; eassumption.
Qed.

Lemma hash_key_deterministic_witness :
  exists key,
    hash_key (mkStat (fun _ => Some "1400000000.0") (fun _ => Some 12345%N))
             "/usr/bin/cc" ["-c"; "a.c"; "-o"; "a.o"]
             (list_byte_of_string "int x;") = Ok key /\
    hash_key (mkStat (fun p => if p =? "/usr/bin/cc"
                               then Some "1400000000.0" else None)
                     (fun _ => Some 12345%N))
             "/usr/bin/cc" ["-c"; "a.c"; "-o"; "a.o"]
             (list_byte_of_string "int x;") = Ok key.
Proof.
  apply (hash_key_deterministic _ _ _ _ _ "1400000000.0" 12345%N);
    reflexivity.
Defined.

(** ** The transport representation *)

(** C7, as stated, fails at the empty byte string: the assertion of
    [CacheData.__init__] rejects an object without bytes, so nothing is
    compressed or written. *)
Lemma roundtrip_empty_rejected :
  store_fetch_dump (G := stored_gzip 0) (fun _ => true) [] "a.o" ∅
  = (∅, Raise AssertionError) /\
  ~ (forall b : list byte,
       store_fetch_dump (G := stored_gzip 0) (fun _ => true) b "a.o" ∅
       = (<["a.o" := b]> ∅, Ok tt)).
Proof.
  split; [reflexivity |].
  intros H. specialize (H []). discriminate H.
Qed.

(** C7 (amended): for every non-empty byte string [b], the [data] of an
    object built from [b], put into a second object and dumped to a path
    that can be opened, leaves exactly [b] in that file. *)
Theorem roundtrip_nonempty {G : Gzip} (can_open : string -> bool)
    (b : list byte) (output : string) (fs : FS) :
  b <> [] ->
  can_open output = true ->
  store_fetch_dump can_open b output fs = (<[output := b]> fs, Ok tt).
Proof.
  intros Hb Hopen. destruct b as [| x b]; [congruence |].
  unfold store_fetch_dump. cbn.
  destruct (gzip 6 (x :: b)) as [| y d] eqn:Hz.
  - exfalso. exact (gzip_not_nil _ _ Hz).
  - cbn. unfold dump. rewrite Hopen. cbn.
    rewrite <- Hz, gunzip_gzip. reflexivity.
Qed.

Lemma roundtrip_nonempty_witness :
  store_fetch_dump (G := stored_gzip 0) (fun _ => true)
                   (list_byte_of_string "ELF") "a.o" ∅
  = (<["a.o" := list_byte_of_string "ELF"]> ∅, Ok tt).
Proof.
  apply (roundtrip_nonempty (G := stored_gzip 0)); [discriminate | reflexivity].
Defined.

(** ** The scanning loop *)

Lemma scan_profile_use (st : scan_state) (post : list string) :
  scan st ("-fprofile-use" :: post) = Ok None.
Proof. reflexivity. Qed.

Lemma scan_dangling (st : scan_state) (f : string) :
  consumes_value f = true -> scan st [f] = Raise StopIteration.
Proof.
  unfold consumes_value. intros H. cbn [scan].
  destruct (f =? "-c") eqn:Hc.
  { apply String.eqb_eq in Hc. subst f. discriminate H. }
  destruct (f =? "-o"); [reflexivity |].
  destruct (str_in f VALUE_FLAGS); [reflexivity |].
  destruct (f =? "-MT"); [reflexivity | discriminate H].
Qed.

(** One iteration of the loop, for proofs by cases on the token. *)
Ltac scan_cases a :=
  cbn [scan];
  destruct (a =? "-c") eqn:?Hc;
  [| destruct (a =? "-o") eqn:?Ho;
     [| destruct (str_in a VALUE_FLAGS) eqn:?Hv;
        [| destruct (a =? "-MT") eqn:?Ht;
           [| destruct (a =? "-fprofile-use") eqn:?Hp;
              [| destruct (flag_like a) eqn:?Hf ]]]]].

(** Scanning a list whose front part is scanned to the end goes on from
    the state reached there. *)
Lemma scan_app_len (n : nat) :
  forall (pre post : list string) (st st' : scan_state),
    (length pre <= n)%nat ->
    scan st pre = Ok (Some st') ->
    scan st (pre ++ post) = scan st' post.
Proof.
  induction n as [| n IH]; intros pre post st st' Hlen Hscan.
  - destruct pre; [| simpl in Hlen; lia].
    cbn in Hscan. injection Hscan as ->. reflexivity.
  - destruct pre as [| a pre].
    + cbn in Hscan. injection Hscan as ->. reflexivity.
    + simpl in Hlen. rewrite <- app_comm_cons. revert Hscan.
      scan_cases a; try discriminate;
        try (destruct pre as [| v pre]; [discriminate |];
             rewrite <- app_comm_cons; simpl in Hlen);
        intros Hscan; apply IH; (lia || assumption).
Qed.

Lemma scan_app (pre post : list string) (st st' : scan_state) :
  scan st pre = Ok (Some st') ->
  scan st (pre ++ post) = scan st' post.
Proof. apply (scan_app_len (length pre)). lia. Qed.

(** What the state after the loop owes to the tokens. *)
Lemma scan_facts_len (n : nat) :
  forall (args : list string) (st st' : scan_state),
    (length args <= n)%nat ->
    scan st args = Ok (Some st') ->
    (compilation st' = true -> compilation st = true \/ In "-c" args) /\
    (forall o, output st' = Some o ->
               output st = Some o \/ (In "-o" args /\ In o args)) /\
    (forall t, target st' = Some t ->
               target st = Some t \/ In "-MT" args) /\
    (forall t, In t (reduced_args st') ->
               In t (reduced_args st) \/ In t args).
Proof.
  induction n as [| n IH]; intros args st st' Hlen Hscan.
  - destruct args; [| simpl in Hlen; lia].
    cbn in Hscan. injection Hscan as ->. tauto.
  - destruct args as [| a args].
    + cbn in Hscan. injection Hscan as ->. tauto.
    + simpl in Hlen. revert Hscan.
      scan_cases a; try discriminate;
        try (destruct args as [| v args]; [discriminate |];
             simpl in Hlen);
        intros Hscan; apply IH in Hscan; try lia;
        destruct Hscan as (H1 & H2 & H3 & H4); cbn in H1, H2, H3, H4;
        repeat match goal with
               | H : (_ =? _) = true |- _ => apply String.eqb_eq in H; subst
               end;
        (split; [| split; [| split]]).
      all: try (intros Hx; specialize (H1 Hx)).
      all: try (intros o Hx; specialize (H2 o Hx)).
      all: try (intros t Hx; specialize (H3 t Hx)).
      all: try (intros t Hx; specialize (H4 t Hx);
                try (apply in_app_or in H4 || rewrite in_app_iff in H4)).
      all: cbn [In] in *; try tauto.
      all: try (destruct H2 as [H2 | H2]; [injection H2 as ->|]; tauto).
      all: try (destruct H4 as [[H4 | H4] | H4]; cbn [In] in H4; tauto).
Qed.

Lemma scan_facts (args : list string) (st : scan_state) :
  scan scan_init args = Ok (Some st) ->
  (compilation st = true -> In "-c" args) /\
  (forall o, output st = Some o -> In "-o" args /\ In o args) /\
  (forall t, target st = Some t -> In "-MT" args) /\
  (forall t, In t (reduced_args st) -> In t args).
Proof.
  intros H. apply (scan_facts_len (length args)) in H; [| lia].
  destruct H as (H1 & H2 & H3 & H4). cbn in H1, H2, H3, H4.
  repeat split.
  - intros Hx. destruct (H1 Hx); [discriminate | assumption].
  - destruct (H2 o H) as [? | [? ?]]; [discriminate | assumption].
  - destruct (H2 o H) as [? | [? ?]]; [discriminate | assumption].
  - intros t Hx. destruct (H3 t Hx); [discriminate | assumption].
  - intros t Hx. destruct (H4 t Hx) as [[] | ?]. assumption.
Qed.

(** ** Classification failure and passthrough *)

Lemma not_cacheable_classify (program : string) (args : list string)
    (st : scan_state) :
  not_cacheable args ->
  scan scan_init args = Ok (Some st) ->
  classify program args st = None.
Proof.
  intros Hnc Hscan. pose proof (scan_facts args st Hscan) as (Hc & Ho & _ & _).
  unfold classify.
  destruct Hnc as [Hno | Hno | st1 H1 Hlen | st1 H1 Hin | st1 inp H1 Hin Hext
                  | pre post st1 Hargs Hpre].
  - destruct (compilation st); [exfalso; auto | reflexivity].
  - destruct (compilation st); [| reflexivity].
    destruct (output st) as [o |]; [| reflexivity].
    exfalso. apply Hno. apply (Ho o). reflexivity.
  - rewrite H1 in Hscan. injection Hscan as ->.
    destruct (compilation st); [| reflexivity].
    destruct (output st); [| reflexivity].
    destruct (input st) as [| i [| j l]]; try reflexivity.
    exfalso. apply Hlen. reflexivity.
  - rewrite H1 in Hscan. injection Hscan as ->. rewrite Hin.
    destruct (compilation st); [| reflexivity].
    destruct (output st); [| reflexivity].
    cbn. rewrite orb_true_r. reflexivity.
  - rewrite H1 in Hscan. injection Hscan as ->. rewrite Hin.
    destruct (compilation st); [| reflexivity].
    destruct (output st); [| reflexivity].
    destruct (negb (truthy (Some s)) || (inp =? "-")); [reflexivity |].
    cbv zeta. rewrite Hext. reflexivity.
  - subst args. rewrite (scan_app _ _ _ _ Hpre), scan_profile_use in Hscan.
    discriminate Hscan.
Qed.

(** C4, as stated, fails in two ways that the code intends.  The empty
    command returns 0 at once and nothing is executed; and a
    [-fprofile-use] that follows [-o] is taken as the output path, so the
    command is classified as cacheable and goes through the cache
    pipeline instead of being executed as it is. *)
Lemma passthrough_counterexample :
  (~ In "-c" (@nil string) /\
   main (G := stored_gzip 0) (sample_world [] UrlError (Ok tt)) ∅ []
   = mkRun [] ∅ (Return 0) []) /\
  (In "-fprofile-use" ["cc"; "-c"; "a.c"; "-o"; "-fprofile-use"] /\
   parse_arguments sample_lookup ["cc"; "-c"; "a.c"; "-o"; "-fprofile-use"]
   = Ok (Some (mkInvocation "/usr/bin/cc" "a.c" "cpp-output" "-fprofile-use"
                            ["-c"; "a.c"; "-o"; "-fprofile-use"] [] [])) /\
   trace (main (G := stored_gzip 0)
               (sample_world (list_byte_of_string "int x;") UrlError (Ok tt))
               ∅ ["cc"; "-c"; "a.c"; "-o"; "-fprofile-use"])
   = [EvPreprocess ["/usr/bin/cc"; "-E"; "a.c"];
      EvGet "5/2/f/52fca8d74bce7e5ab6814ffc57f079ea3ad21104" None;
      EvCompile ["/usr/bin/cc"; "-c"; "-x"; "cpp-output"; "-"; "-o";
                 "-fprofile-use"] (list_byte_of_string "int x;");
      EvSpawn "-fprofile-use" "5/2/f/52fca8d74bce7e5ab6814ffc57f079ea3ad21104";
      EvWrite (Caching "-fprofile-use"
                 "5/2/f/52fca8d74bce7e5ab6814ffc57f079ea3ad21104"
                 (Some (-1)%Z))]).
Proof.
  split; [split; [intros [] | reflexivity] |].
  split; [cbn; tauto |]. split; [reflexivity |].
  vm_compute. reflexivity.
Qed.

(** C4 (amended): for a non-empty command whose scan completes, if the
    arguments lack [-c], lack [-o], collect zero or several inputs, have
    [-] as single input, have an input with an unrecognized extension, or
    hold a [-fprofile-use] met as a flag, then [parse_arguments] returns
    [None] and [main] runs the original command, unchanged, and returns
    the exit code of that process. *)
Theorem not_cacheable_passthrough {G : Gzip} (w : World) (fs : FS)
    (program : string) (args : list string) :
  scan_completes args = true ->
  not_cacheable args ->
  parse_arguments (lookup w) (program :: args) = Ok None /\
  forall (fs' : FS) (code : Z),
    subprocess_call w (program :: args) fs = (fs', Ok code) ->
    main w fs (program :: args)
    = mkRun [EvCall (program :: args)] fs' (Return code) [].
Proof.
  intros Hdone Hnc.
  assert (Hparse : parse_arguments (lookup w) (program :: args) = Ok None).
  { unfold parse_arguments.
    destruct (resolve_program (lookup w) program) as [p |]; [| reflexivity].
    unfold scan_completes in Hdone.
    destruct (scan scan_init args) as [[st |] | e] eqn:Hscan;
      [| reflexivity | discriminate].
    cbn. rewrite (not_cacheable_classify p args st Hnc Hscan). reflexivity. }
  split; [exact Hparse |].
  intros fs' code Hcall. unfold main. rewrite Hparse, Hcall. reflexivity.
Qed.

Lemma not_cacheable_passthrough_witness :
  parse_arguments (lookup (sample_world [] UrlError (Ok tt)))
                  ["cc"; "-c"; "a.c"; "-o"; "a.o"; "-fprofile-use"]
  = Ok None /\
  forall (fs' : FS) (code : Z),
    subprocess_call (sample_world [] UrlError (Ok tt))
                    ["cc"; "-c"; "a.c"; "-o"; "a.o"; "-fprofile-use"] ∅
    = (fs', Ok code) ->
    main (G := stored_gzip 0) (sample_world [] UrlError (Ok tt)) ∅
         ["cc"; "-c"; "a.c"; "-o"; "a.o"; "-fprofile-use"]
    = mkRun [EvCall ["cc"; "-c"; "a.c"; "-o"; "a.o"; "-fprofile-use"]]
            fs' (Return code) [].
Proof.
  apply (not_cacheable_passthrough (G := stored_gzip 0)
           (sample_world [] UrlError (Ok tt)) ∅ "cc"
           ["-c"; "a.c"; "-o"; "a.o"; "-fprofile-use"]).
  - reflexivity.
  - apply (profile_use _ ["-c"; "a.c"; "-o"; "a.o"] []
             (mkScan [] ["a.c"] (Some "a.o") None false true));
      reflexivity.
Defined.

(** ** A value-taking flag at the end of the command *)

(** C10, as stated, fails when the last token is itself the value of the
    flag before it: in [cc -c a.c -o -I] the token [-I] is the output
    path, and the command is classified. *)
Lemma trailing_flag_counterexample :
  consumes_value "-I" = true /\
  last ["cc"; "-c"; "a.c"; "-o"; "-I"] = Some "-I" /\
  parse_arguments sample_lookup ["cc"; "-c"; "a.c"; "-o"; "-I"]
  = Ok (Some (mkInvocation "/usr/bin/cc" "a.c" "cpp-output" "-I"
                           ["-c"; "a.c"; "-o"; "-I"] [] [])).
Proof. repeat split. Qed.

(** C10 (amended): when the program is found, the tokens before the last
    one are scanned to the end, and the last token is [-o], [-MT] or one
    of the flags of the fixed set, [parse_arguments] raises
    [StopIteration]; the exception leaves [main], which executes
    nothing. *)
Theorem trailing_flag_raises {G : Gzip} (w : World) (fs : FS)
    (program program' : string) (pre : list string) (f : string)
    (st : scan_state) :
  resolve_program (lookup w) program = Some program' ->
  scan scan_init pre = Ok (Some st) ->
  consumes_value f = true ->
  parse_arguments (lookup w) (program :: pre ++ [f]) = Raise StopIteration /\
  main w fs (program :: pre ++ [f]) = mkRun [] fs (Raised StopIteration) [].
Proof.
  intros Hres Hpre Hf.
  assert (Hparse : parse_arguments (lookup w) (program :: pre ++ [f])
                   = Raise StopIteration).
  { unfold parse_arguments. rewrite Hres.
    rewrite (scan_app _ _ _ _ Hpre), (scan_dangling _ _ Hf). reflexivity. }
  split; [exact Hparse |].
  unfold main. rewrite Hparse. reflexivity.
Qed.

Lemma trailing_flag_raises_witness :
  parse_arguments (lookup (sample_world [] UrlError (Ok tt)))
                  ("cc" :: ["-c"; "a.c"] ++ ["-o"])
  = Raise StopIteration /\
  main (G := stored_gzip 0) (sample_world [] UrlError (Ok tt)) ∅
       ("cc" :: ["-c"; "a.c"] ++ ["-o"])
  = mkRun [] ∅ (Raised StopIteration) [].
Proof.
  apply (trailing_flag_raises (G := stored_gzip 0)
           (sample_world [] UrlError (Ok tt)) ∅ "cc" "/usr/bin/cc"
           ["-c"; "a.c"] "-o" (mkScan [] ["a.c"] None None false true));
    reflexivity.
Defined.

(** ** The steps of [main] *)

Lemma main_compile_trace {G : Gzip} (w : World) (fs : FS) (inv : invocation)
    (preprocessed : list byte) (key : option string)
    (bucket : option Bucket) (tr : list event) :
  exists tail,
    trace (main_compile w fs inv preprocessed key bucket tr)
    = tr ++ EvCompile (compile_argv inv) preprocessed :: tail /\
    Forall is_report tail.
Proof.
  unfold main_compile.
  destruct (popen w (compile_argv inv) preprocessed fs) as [fs' [ret | e]].
  - destruct (negb (ret =? 0)%Z || negb (fs_exists fs' (inv_output inv))).
    + cbn [trace]. rewrite <- app_assoc. eexists. split; [reflexivity |].
      repeat constructor.
    + destruct key as [key |].
      * destruct (cache_store w fs' (inv_output inv) key) as [wk |];
          cbn [trace]; rewrite <- ?app_assoc; eexists;
          (split; [reflexivity | repeat constructor]).
      * cbn [trace]. exists []. split; [reflexivity | constructor].
  - cbn [trace]. exists []. split; [reflexivity | constructor].
Qed.

Lemma is_report_after_preprocess (inv : invocation) (l : list event) :
  Forall is_report l -> Forall (after_preprocess inv) l.
Proof.
  intros Hl. eapply Forall_impl; [exact Hl |].
  intros [] H; cbn in *; tauto.
Qed.

Lemma main_lookup_trace {G : Gzip} (w : World) (fs : FS) (inv : invocation)
    (preprocessed : list byte) (tr : list event) :
  exists tail,
    trace (main_lookup w fs inv preprocessed tr) = tr ++ tail /\
    Forall (after_preprocess inv) tail.
Proof.
  assert (Hcompile : forall pp key bucket tr0 mid,
             Forall (after_preprocess inv) mid ->
             tr0 = tr ++ mid ->
             exists tail,
               trace (main_compile w fs inv pp key bucket tr0) = tr ++ tail /\
               Forall (after_preprocess inv) tail).
  { intros pp key bucket tr0 mid Hmid ->.
    destruct (main_compile_trace w fs inv pp key bucket (tr ++ mid))
      as (tail & -> & Htail).
    rewrite <- app_assoc. eexists. split; [reflexivity |].
    apply Forall_app. split; [assumption |].
    constructor; [reflexivity | apply is_report_after_preprocess, Htail]. }
  unfold main_lookup.
  destruct preprocessed as [| x pp].
  { apply (Hcompile _ _ _ _ []); [constructor | symmetry; apply app_nil_r]. }
  destruct (hash_key (stat w) (inv_program inv) (inv_args inv) (x :: pp))
    as [key | e].
  2: { exists []. rewrite app_nil_r. split; [reflexivity | constructor]. }
  destruct (environ w !! "SCCACHE_RECACHE").
  { apply (Hcompile _ _ _ _ []); [constructor | symmetry; apply app_nil_r]. }
  destruct (Bucket_get w (Bucket_init w) key) as [[c |] bucket].
  - destruct (dump (can_open w) c (inv_output inv) fs) as [fs' [u | e]].
    + destruct (data c) as [[d c'] | e]; cbn [trace]; rewrite <- ?app_assoc;
        eexists; (split; [reflexivity | repeat constructor]).
    + cbn [trace]. eexists. split; [reflexivity | repeat constructor].
  - apply (Hcompile _ _ _ _ [EvGet key None]);
      [repeat constructor | reflexivity].
Qed.

Lemma classify_Some (program : string) (args : list string)
    (st : scan_state) (inv : invocation) :
  classify program args st = Some inv ->
  exists inp file_type out,
    compilation st = true /\ output st = Some out /\ input st = [inp] /\
    FILE_TYPES !! snd (splitext inp) = Some file_type /\
    inv = mkInvocation program inp file_type out args
            (if need_explicit_target st
             then ["-MT"; target_or_output (target st) out] else [])
            (reduced_args st).
Proof.
  unfold classify. intros H.
  destruct (compilation st) eqn:Hc; [| discriminate].
  destruct (output st) as [out |] eqn:Ho; [| discriminate].
  destruct (input st) as [| inp [| ? ?]] eqn:Hi; try discriminate.
  destruct (negb (truthy (Some out)) || (inp =? "-")); [discriminate |].
  cbv zeta in H.
  destruct (FILE_TYPES !! snd (splitext inp)) as [ft |] eqn:Hft;
    [| discriminate].
  injection H as <-. exists inp, ft, out. auto.
Qed.

Lemma FILE_TYPES_values (k v : string) :
  FILE_TYPES !! k = Some v ->
  v = "cpp-output" \/ v = "c++-cpp-output" \/ v = "c++-cpp-outout".
Proof.
  unfold FILE_TYPES.
  rewrite !lookup_insert_Some, lookup_empty.
  intuition (try discriminate; subst; auto).
Qed.

Lemma parse_arguments_Some (lk : Lookup) (program program' : string)
    (args : list string) (st : scan_state) (inv : invocation) :
  resolve_program lk program = Some program' ->
  scan scan_init args = Ok (Some st) ->
  classify program' args st = Some inv ->
  parse_arguments lk (program :: args) = Ok (Some inv).
Proof.
  intros Hres Hscan Hcl. unfold parse_arguments.
  rewrite Hres, Hscan. cbn. rewrite Hcl. reflexivity.
Qed.

(** A classified command starts with the preprocessing call. *)
Lemma main_trace_classified {G : Gzip} (w : World) (fs : FS)
    (command : list string) (inv : invocation) :
  parse_arguments (lookup w) command = Ok (Some inv) ->
  exists tail,
    trace (main w fs command) = EvPreprocess (preprocess_argv inv) :: tail /\
    Forall (after_preprocess inv) tail.
Proof.
  intros Hparse. unfold main.
  destruct command as [| program args]; [discriminate Hparse |].
  rewrite Hparse.
  destruct (check_output w (preprocess_argv inv) fs) as [fs' [pp | e]].
  - destruct (main_lookup_trace w fs' inv pp [EvPreprocess (preprocess_argv inv)])
      as (tail & -> & Htail).
    exists tail. split; [reflexivity | assumption].
  - destruct e; cbn [trace]; eexists;
      (split; [reflexivity | repeat constructor]).
Qed.

(** ** The explicit dependency target *)

(** C5: when a dependency flag asked for an explicit target and the loop
    recorded none, the preprocessing call, and only it, carries
    [-MT <output>]; every compile call has exactly the fixed flags
    followed by the reduced arguments, these are tokens of the original
    command, and no [-MT] occurs among the compile arguments unless the
    command itself holds that token. *)
Theorem explicit_target_only_preprocess {G : Gzip} (w : World) (fs : FS)
    (program program' : string) (args : list string) (st : scan_state)
    (inv : invocation) :
  resolve_program (lookup w) program = Some program' ->
  scan scan_init args = Ok (Some st) ->
  classify program' args st = Some inv ->
  need_explicit_target st = true ->
  target st = None ->
  let r := main w fs (program :: args) in
  let fixed := ["-c"; "-x"; inv_file_type inv; "-"; "-o"; inv_output inv] in
  inv_mt inv = ["-MT"; inv_output inv] /\
  (forall argv,
      In (EvPreprocess argv) (trace r) <->
      argv = [program'; "-E"; inv_input inv] ++ ["-MT"; inv_output inv]
             ++ reduced_args st) /\
  (forall argv stdin,
      In (EvCompile argv stdin) (trace r) ->
      argv = program' :: fixed ++ reduced_args st) /\
  (forall t, In t (reduced_args st) -> In t args) /\
  (~ In "-MT" args -> ~ In "-MT" (fixed ++ reduced_args st)).
Proof.
  intros Hres Hscan Hcl Hneed Htarget r fixed.
  pose proof (parse_arguments_Some _ _ _ _ _ _ Hres Hscan Hcl) as Hparse.
  destruct (main_trace_classified w fs _ _ Hparse) as (tail & Htrace & Htail).
  fold r in Htrace.
  destruct (classify_Some _ _ _ _ Hcl)
    as (inp & ft & out & Hc & Ho & Hi & Hft & Hinv).
  rewrite Hneed, Htarget in Hinv. cbn [target_or_output] in Hinv.
  pose proof (scan_facts args st Hscan) as (_ & Hout & _ & Hred).
  assert (Hpp : preprocess_argv inv
                = [program'; "-E"; inv_input inv] ++ ["-MT"; inv_output inv]
                  ++ reduced_args st) by (subst inv; reflexivity).
  assert (Hcc : compile_argv inv = program' :: fixed ++ reduced_args st)
    by (subst inv; reflexivity).
  rewrite List.Forall_forall in Htail.
  split; [subst inv; reflexivity |].
  split; [| split; [| split]].
  - intros argv. rewrite Htrace, <- Hpp. split.
    + intros [Heq | Hin]; [congruence |].
      destruct (Htail _ Hin).
    + intros ->. left. reflexivity.
  - intros argv stdin. rewrite Htrace, <- Hcc.
    intros [Heq | Hin]; [discriminate |]. exact (Htail _ Hin).
  - exact Hred.
  - intros Hno Hin. apply in_app_or in Hin. destruct Hin as [Hin | Hin].
    + subst fixed inv. cbn in Hin.
      destruct (FILE_TYPES_values _ _ Hft) as [-> | [-> | ->]];
        destruct (Hout out Ho) as [_ Hoa];
        intuition (try discriminate; subst; auto).
    + apply Hno, Hred, Hin.
Qed.

Lemma explicit_target_only_preprocess_witness :
  let r := main (G := stored_gzip 0) (sample_world [] UrlError (Ok tt)) ∅
                ("cc" :: ["-M"; "a.c"; "-c"; "-o"; "a.o"]) in
  (forall argv,
      In (EvPreprocess argv) (trace r) <->
      argv = ["/usr/bin/cc"; "-E"; "a.c"; "-MT"; "a.o"; "-M"]) /\
  (forall argv stdin,
      In (EvCompile argv stdin) (trace r) ->
      argv = ["/usr/bin/cc"; "-c"; "-x"; "cpp-output"; "-"; "-o"; "a.o";
              "-M"]).
Proof.
  pose proof (explicit_target_only_preprocess (G := stored_gzip 0)
                (sample_world [] UrlError (Ok tt)) ∅ "cc" "/usr/bin/cc"
                ["-M"; "a.c"; "-c"; "-o"; "a.o"]
                (mkScan ["-M"] ["a.c"] (Some "a.o") None true true)
                (mkInvocation "/usr/bin/cc" "a.c" "cpp-output" "a.o"
                              ["-M"; "a.c"; "-c"; "-o"; "a.o"]
                              ["-MT"; "a.o"] ["-M"])
                eq_refl eq_refl eq_refl eq_refl eq_refl)
    as (_ & Hpp & Hcc & _).
  split; [exact Hpp | exact Hcc].
Defined.

(** ** A hit in the bucket *)

Lemma Bucket_get_Some (w : World) (b b' : Bucket) (key : string)
    (c : CacheData) :
  Bucket_get w b key = (Some c, b') ->
  exists x d, c = mkCacheData (Some (x :: d)) None.
Proof.
  unfold Bucket_get.
  destruct (negb (truthy (Some (_name b)))); [discriminate |].
  destruct (urlopen w (bucket_url (_name b) key)) as [[| x d] | code |];
    try discriminate.
  cbn. intros H. injection H as <- _. eauto.
Qed.

(** C2: the failing run.  The bucket answers with the byte [x], which is
    not a gzip member.  [Bucket.get] returns an object, so the run is a
    hit; [cache.dump(output)] opens the output, which empties it, and the
    read raises [IOError].  The call is outside every [try]: the exception
    leaves [main], which returns no exit code, writes no line and leaves
    an empty [a.o].  With no entry in the bucket the same command is
    compiled and [main] returns 0 with the object file in place. *)
Theorem corrupt_hit_raises :
  let hit := main (G := stored_gzip 0)
               (sample_world (list_byte_of_string "int x;")
                             (UrlBody (list_byte_of_string "x")) (Ok tt))
               ∅ sample_command in
  let miss := main (G := stored_gzip 0)
                (sample_world (list_byte_of_string "int x;") UrlError (Ok tt))
                ∅ sample_command in
  trace hit
  = [EvPreprocess ["/usr/bin/cc"; "-E"; "a.c"];
     EvGet "5/2/f/52fca8d74bce7e5ab6814ffc57f079ea3ad21104"
           (Some (mkCacheData (Some (list_byte_of_string "x")) None))] /\
  result_of hit = Raised IOError /\
  files hit = <["a.o" := []]> ∅ /\
  result_of miss = Return 0 /\
  files miss = <["a.o" := list_byte_of_string "ELF"]> ∅.
Proof.
  vm_compute. repeat split.
Qed.

(** What the code does at a hit whose bytes are well formed: when they
    decompress cleanly and the output path can be opened, the decompressed
    bytes are written there and [main] returns 0.  No run whose lookup
    returns an object reaches the compile call. *)
Theorem hit_never_compiles {G : Gzip} (w : World) (fs : FS)
    (command : list string) (key : string) (c : CacheData) :
  In (EvGet key (Some c)) (trace (main w fs command)) ->
  (forall argv stdin,
      ~ In (EvCompile argv stdin) (trace (main w fs command))) /\
  exists inv fs1 d,
    parse_arguments (lookup w) command = Ok (Some inv) /\
    _data c = Some d /\
    fst (check_output w (preprocess_argv inv) fs) = fs1 /\
    forall b,
      gunzip d = (b, true) ->
      can_open w (inv_output inv) = true ->
      result_of (main w fs command) = Return 0 /\
      files (main w fs command) = <[inv_output inv := b]> fs1.
Proof.
  unfold main.
  destruct command as [| program args]; [intros [] |].
  destruct (parse_arguments (lookup w) (program :: args))
    as [[inv |] | e] eqn:Hparse.
  2: { destruct (subprocess_call w (program :: args) fs) as [fs' [code | e]];
       cbn; intuition discriminate. }
  2: { intros []. }
  destruct (check_output w (preprocess_argv inv) fs) as [fs1 [pp | e]]
    eqn:Hpp.
  2: { destruct e; cbn; intuition discriminate. }
  unfold main_lookup.
  assert (Hmiss : forall k b tr,
             ~ In (EvGet key (Some c)) tr ->
             ~ In (EvGet key (Some c))
                  (trace (main_compile w fs1 inv pp k b tr))).
  { intros k b tr Htr Hin.
    destruct (main_compile_trace w fs1 inv pp k b tr) as (tail & Heq & Htail).
    rewrite Heq in Hin. apply in_app_or in Hin.
    destruct Hin as [Hin | [Hin | Hin]]; [tauto | discriminate |].
    rewrite List.Forall_forall in Htail. exact (Htail _ Hin). }
  destruct pp as [| x pp].
  { intros Hin. exfalso. revert Hin. apply Hmiss. cbn. intuition discriminate. }
  destruct (hash_key (stat w) (inv_program inv) (inv_args inv) (x :: pp))
    as [key' | e].
  2: { cbn. intuition discriminate. }
  destruct (environ w !! "SCCACHE_RECACHE").
  { intros Hin. exfalso. revert Hin. apply Hmiss. cbn. intuition discriminate. }
  destruct (Bucket_get w (Bucket_init w) key') as [[c' |] bucket] eqn:Hget.
  2: { intros Hin. exfalso. revert Hin. apply Hmiss. cbn.
       intuition discriminate. }
  destruct (Bucket_get_Some _ _ _ _ _ Hget) as (y & d & ->).
  intros Hin.
  assert (Hc : c = mkCacheData (Some (y :: d)) None).
  { destruct (dump (can_open w) (mkCacheData (Some (y :: d)) None)
                   (inv_output inv) fs1) as [fs' [u | e]];
      [destruct (data (mkCacheData (Some (y :: d)) None)) as [[d' c'] | e] |];
      cbn in Hin; intuition congruence. }
  subst c. split.
  - intros argv stdin.
    destruct (dump (can_open w) (mkCacheData (Some (y :: d)) None)
                   (inv_output inv) fs1) as [fs' [u | e]];
      [destruct (data (mkCacheData (Some (y :: d)) None)) as [[d' c'] | e] |];
      cbn; intuition discriminate.
  - exists inv, fs1, (y :: d). rewrite Hpp.
    repeat (split; [reflexivity |]).
    intros b Hgunzip Hopen. unfold dump. rewrite Hopen. cbn.
    rewrite Hgunzip. cbn. split; reflexivity.
Qed.

Lemma hit_never_compiles_witness :
  let w := sample_world (list_byte_of_string "int x;")
             (UrlBody (gzip (Gzip := stored_gzip 0) 6
                            (list_byte_of_string "ELF"))) (Ok tt) in
  let r := main (G := stored_gzip 0) w ∅ sample_command in
  (forall argv stdin, ~ In (EvCompile argv stdin) (trace r)) /\
  result_of r = Return 0 /\
  files r = <["a.o" := list_byte_of_string "ELF"]> ∅.
Proof.
  intros w r.
  destruct (hit_never_compiles (G := stored_gzip 0) w ∅ sample_command
              "5/2/f/52fca8d74bce7e5ab6814ffc57f079ea3ad21104"
              (mkCacheData (Some (gzip (Gzip := stored_gzip 0) 6
                                       (list_byte_of_string "ELF"))) None))
    as (Hno & inv & fs1 & d & Hparse & Hd & Hfs & Hret).
  { vm_compute. tauto. }
  split; [exact Hno |].
  injection Hparse as <-. injection Hd as <-. cbn in Hfs. subst fs1.
  apply (Hret (list_byte_of_string "ELF")); reflexivity.
Defined.

(** ** Empty preprocessor output *)

(** C9: when preprocessing succeeds with no bytes, [main] goes from the
    preprocessing call straight to the compile call (no key is computed,
    no lookup is made); if that compilation exits 0 and leaves the output
    file, the store step reads the unassigned local [key] and an
    [UnboundLocalError], which is a [NameError], leaves [main]. *)
Theorem empty_preprocess_unbound_key {G : Gzip} (w : World) (fs : FS)
    (command : list string) (inv : invocation) (fs1 fs2 : FS) :
  parse_arguments (lookup w) command = Ok (Some inv) ->
  check_output w (preprocess_argv inv) fs = (fs1, Ok []) ->
  popen w (compile_argv inv) [] fs1 = (fs2, Ok 0%Z) ->
  fs_exists fs2 (inv_output inv) = true ->
  main w fs command
  = mkRun [EvPreprocess (preprocess_argv inv);
           EvCompile (compile_argv inv) []]
          fs2 (Raised (UnboundLocalError "key")) [] /\
  isinstance_NameError (UnboundLocalError "key") = true.
Proof.
  intros Hparse Hpp Hcc Hout. split; [| reflexivity].
  unfold main. destruct command as [| program args]; [discriminate Hparse |].
  rewrite Hparse, Hpp. unfold main_lookup, main_compile.
  rewrite Hcc, Hout. reflexivity.
Qed.

Lemma empty_preprocess_unbound_key_witness :
  main (G := stored_gzip 0) (sample_world [] UrlError (Ok tt)) ∅
       sample_command
  = mkRun [EvPreprocess ["/usr/bin/cc"; "-E"; "a.c"];
           EvCompile ["/usr/bin/cc"; "-c"; "-x"; "cpp-output"; "-"; "-o";
                      "a.o"] []]
          (<["a.o" := list_byte_of_string "ELF"]> ∅)
          (Raised (UnboundLocalError "key")) [] /\
  isinstance_NameError (UnboundLocalError "key") = true.
Proof.
  apply (empty_preprocess_unbound_key (G := stored_gzip 0)
           (sample_world [] UrlError (Ok tt)) ∅ sample_command
           (mkInvocation "/usr/bin/cc" "a.c" "cpp-output" "a.o"
                         ["-c"; "a.c"; "-o"; "a.o"] [] [])
           ∅ (<["a.o" := list_byte_of_string "ELF"]> ∅));
    reflexivity.
Defined.

(** ** The exit code after a successful compilation *)

(** Whatever the upload does, the steps, the files and the result of
    [main] are the same: only the worker sees it. *)
Lemma upload_does_not_reach_main {G : Gzip} (w : World) (fs : FS)
    (command : list string)
    (put : string -> string -> list byte -> result unit) :
  trace (main (with_s3_put w put) fs command) = trace (main w fs command) /\
  files (main (with_s3_put w put) fs command) = files (main w fs command) /\
  result_of (main (with_s3_put w put) fs command)
  = result_of (main w fs command).
Proof.
  unfold main. destruct command as [| program args]; [repeat split |].
  cbn [lookup with_s3_put subprocess_call check_output].
  destruct (parse_arguments (lookup w) (program :: args)) as [[inv |] | e];
    [| destruct (subprocess_call w (program :: args) fs) as [? []];
       repeat split | repeat split].
  destruct (check_output w (preprocess_argv inv) fs) as [fs1 [pp | e]];
    [| destruct e; repeat split].
  assert (Hcompile : forall k b tr,
    trace (main_compile (with_s3_put w put) fs1 inv pp k b tr)
    = trace (main_compile w fs1 inv pp k b tr) /\
    files (main_compile (with_s3_put w put) fs1 inv pp k b tr)
    = files (main_compile w fs1 inv pp k b tr) /\
    result_of (main_compile (with_s3_put w put) fs1 inv pp k b tr)
    = result_of (main_compile w fs1 inv pp k b tr)).
  { intros k b tr. unfold main_compile. cbn [popen with_s3_put].
    destruct (popen w (compile_argv inv) pp fs1) as [fs2 [ret | e]];
      [| repeat split].
    destruct (negb (ret =? 0)%Z || negb (fs_exists fs2 (inv_output inv)));
      [repeat split |].
    destruct k as [k |]; [| repeat split].
    unfold cache_store.
    destruct (from_object fs2 (inv_output inv)); repeat split. }
  unfold main_lookup. destruct pp as [| x pp]; [apply Hcompile |].
  cbn [stat environ with_s3_put].
  destruct (hash_key (stat w) (inv_program inv) (inv_args inv) (x :: pp))
    as [key | e]; [| repeat split].
  destruct (environ w !! "SCCACHE_RECACHE"); [apply Hcompile |].
  change (Bucket_get (with_s3_put w put) (Bucket_init (with_s3_put w put)) key)
    with (Bucket_get w (Bucket_init w) key).
  destruct (Bucket_get w (Bucket_init w) key) as [[c |] bucket];
    [| apply Hcompile].
  cbn [can_open with_s3_put].
  destruct (dump (can_open w) c (inv_output inv) fs1) as [fs2 [u | e]];
    [| repeat split].
  destruct (data c) as [[d c'] | e]; repeat split.
Qed.

(** Without a bucket name the lookup misses, the compiler runs, the
    worker's upload fails with status -1, and [main] returns 0. *)
Example no_bucket_configured :
  main (G := stored_gzip 0)
       (sample_world_env ∅ (list_byte_of_string "int x;") UrlError (Ok tt))
       ∅ sample_command
  = mkRun
      [EvPreprocess ["/usr/bin/cc"; "-E"; "a.c"];
       EvGet "5/2/f/52fca8d74bce7e5ab6814ffc57f079ea3ad21104" None;
       EvCompile ["/usr/bin/cc"; "-c"; "-x"; "cpp-output"; "-"; "-o"; "a.o"]
                 (list_byte_of_string "int x;");
       EvSpawn "a.o" "5/2/f/52fca8d74bce7e5ab6814ffc57f079ea3ad21104";
       EvWrite (Caching "a.o" "5/2/f/52fca8d74bce7e5ab6814ffc57f079ea3ad21104"
                        (Some (-1)%Z))]
      (<["a.o" := list_byte_of_string "ELF"]> ∅)
      (Return 0)
      [EvPut "5/2/f/52fca8d74bce7e5ab6814ffc57f079ea3ad21104"
             (gzip (Gzip := stored_gzip 0) 6 (list_byte_of_string "ELF"));
       EvWrite (FailureCaching "a.o"
                  "5/2/f/52fca8d74bce7e5ab6814ffc57f079ea3ad21104" (-1)%Z)].
Proof. vm_compute. reflexivity. Qed.

(** C3: the failing run.  Preprocessing prints nothing, the compiler
    exits 0 and writes [a.o], and [main] ends with an exception instead of
    returning 0; the upload has not even been attempted. *)
Theorem successful_compile_raises :
  let r := main (G := stored_gzip 0) (sample_world [] UrlError (Ok tt)) ∅
                sample_command in
  In (EvCompile ["/usr/bin/cc"; "-c"; "-x"; "cpp-output"; "-"; "-o"; "a.o"] [])
     (trace r) /\
  sample_compiler ["/usr/bin/cc"; "-c"; "-x"; "cpp-output"; "-"; "-o"; "a.o"]
                  [] ∅
  = (<["a.o" := list_byte_of_string "ELF"]> ∅, Ok 0%Z) /\
  fs_exists (files r) "a.o" = true /\
  result_of r = Raised (UnboundLocalError "key") /\
  worker r = [].
Proof.
  vm_compute. repeat split. tauto.
Qed.

(** With preprocessor output and a non-empty object file, a compilation
    that exits 0 makes [main] return 0 whether the upload succeeds or
    not. *)
Lemma compiled_returns_0 {G : Gzip} (w : World) (fs fs' : FS)
    (inv : invocation) (preprocessed : list byte) (key : string)
    (bucket : option Bucket) (tr : list event) (x : byte)
    (obj : list byte) :
  popen w (compile_argv inv) preprocessed fs = (fs', Ok 0%Z) ->
  fs' !! inv_output inv = Some (x :: obj) ->
  result_of (main_compile w fs inv preprocessed (Some key) bucket tr)
  = Return 0.
Proof.
  intros Hcc Hobj. unfold main_compile, cache_store, from_object, fs_exists.
  rewrite Hcc, Hobj. reflexivity.
Qed.

(** * Further properties of the classifier *)

Lemma token_cases (st : scan_state) (a : string) : token_kind st a.
Proof.
  destruct (a =? "-c") eqn:Hc.
  { eapply token_single. intros l. cbn [scan]. rewrite Hc. reflexivity. }
  destruct (a =? "-o") eqn:Ho.
  { eapply token_valued.
    - unfold consumes_value. rewrite Ho. reflexivity.
    - intros v l. cbn [scan]. rewrite Hc, Ho. reflexivity. }
  destruct (str_in a VALUE_FLAGS) eqn:Hv.
  { eapply token_valued.
    - unfold consumes_value. rewrite Hv, orb_true_r. reflexivity.
    - intros v l. cbn [scan]. rewrite Hc, Ho, Hv. reflexivity. }
  destruct (a =? "-MT") eqn:Ht.
  { eapply token_valued.
    - unfold consumes_value. rewrite Ht, orb_true_r. reflexivity.
    - intros v l. cbn [scan]. rewrite Hc, Ho, Hv, Ht. reflexivity. }
  destruct (a =? "-fprofile-use") eqn:Hp.
  { apply token_stops. intros l. cbn [scan].
    rewrite Hc, Ho, Hv, Ht, Hp. reflexivity. }
  destruct (flag_like a) eqn:Hf.
  - eapply token_single. intros l. cbn [scan].
    rewrite Hc, Ho, Hv, Ht, Hp, Hf. reflexivity.
  - eapply token_single. intros l. cbn [scan].
    rewrite Hc, Ho, Hv, Ht, Hp, Hf. reflexivity.
Qed.

Lemma scan_raises_len (n : nat) :
  forall (args : list string) (st : scan_state) (e : exn),
    (length args <= n)%nat ->
    scan st args = Raise e ->
    e = StopIteration /\
    exists pre f st',
      args = pre ++ [f] /\ scan st pre = Ok (Some st') /\
      consumes_value f = true.
Proof.
  induction n as [| n IH]; intros args st e Hlen Hscan.
  { destruct args; [discriminate Hscan | simpl in Hlen; lia]. }
  destruct args as [| a rest]; [discriminate Hscan |]. simpl in Hlen.
  destruct (token_cases st a) as [st1 H1 | next Hcv H2 | H0].
  - rewrite H1 in Hscan. apply IH in Hscan; [| lia].
    destruct Hscan as (-> & pre & f & st' & -> & Hpre & Hf).
    split; [reflexivity |]. exists (a :: pre), f, st'.
    rewrite H1. auto.
  - destruct rest as [| v rest].
    + rewrite (scan_dangling _ _ Hcv) in Hscan. injection Hscan as <-.
      split; [reflexivity |]. exists [], a, st. auto.
    + simpl in Hlen. rewrite H2 in Hscan. apply IH in Hscan; [| lia].
      destruct Hscan as (-> & pre & f & st' & -> & Hpre & Hf).
      split; [reflexivity |]. exists (a :: v :: pre), f, st'.
      rewrite H2. auto.
  - rewrite H0 in Hscan. discriminate Hscan.
Qed.

Lemma scan_stops_len (n : nat) :
  forall (args : list string) (st : scan_state),
    (length args <= n)%nat ->
    scan st args = Ok None ->
    exists pre post st',
      args = pre ++ "-fprofile-use" :: post /\ scan st pre = Ok (Some st').
Proof.
  induction n as [| n IH]; intros args st Hlen Hscan.
  { destruct args; [discriminate Hscan | simpl in Hlen; lia]. }
  destruct args as [| a rest]; [discriminate Hscan |]. simpl in Hlen.
  destruct (a =? "-fprofile-use") eqn:Hp.
  { apply String.eqb_eq in Hp. subst a. exists [], rest, st. auto. }
  destruct (token_cases st a) as [st1 H1 | next Hcv H2 | H0].
  - rewrite H1 in Hscan. apply IH in Hscan; [| lia].
    destruct Hscan as (pre & post & st' & -> & Hpre).
    exists (a :: pre), post, st'. rewrite H1. auto.
  - destruct rest as [| v rest].
    + rewrite (scan_dangling _ _ Hcv) in Hscan. discriminate Hscan.
    + simpl in Hlen. rewrite H2 in Hscan. apply IH in Hscan; [| lia].
      destruct Hscan as (pre & post & st' & -> & Hpre).
      exists (a :: v :: pre), post, st'. rewrite H2. auto.
  - exfalso. specialize (H0 []). revert H0. cbn [scan].
    destruct (a =? "-c"); [discriminate |].
    destruct (a =? "-o"); [discriminate |].
    destruct (str_in a VALUE_FLAGS); [discriminate |].
    destruct (a =? "-MT"); [discriminate |].
    rewrite Hp. destruct (flag_like a); discriminate.
Qed.

(** X1: [parse_arguments] raises exactly when the program is found and the
    argument list ends, after a part that the loop scans to its end, with
    a flag that takes a value; the exception is then [StopIteration]. *)
Theorem parse_arguments_raises_iff (lk : Lookup) (program : string)
    (args : list string) (e : exn) :
  parse_arguments lk (program :: args) = Raise e <->
  e = StopIteration /\
  is_Some (resolve_program lk program) /\
  exists pre f st,
    args = pre ++ [f] /\ scan scan_init pre = Ok (Some st) /\
    consumes_value f = true.
Proof.
  unfold parse_arguments. split.
  - destruct (resolve_program lk program) as [p |]; [| discriminate].
    destruct (scan scan_init args) as [[st |] | e'] eqn:Hscan;
      try discriminate.
    cbn. intros H. injection H as ->.
    destruct (scan_raises_len (length args) args scan_init e (le_n _) Hscan)
      as (-> & Hex).
    split; [reflexivity |]. split; [eauto | exact Hex].
  - intros (-> & [p Hp] & pre & f & st & -> & Hpre & Hf).
    rewrite Hp, (scan_app _ _ _ _ Hpre), (scan_dangling _ _ Hf). reflexivity.
Qed.

(** X2: the loop leaves [parse_arguments] early with [None] exactly when
    [-fprofile-use] stands at a place where the loop reads a flag, that is
    after a part scanned to its end. *)
Theorem scan_profile_use_iff (st : scan_state) (args : list string) :
  scan st args = Ok None <->
  exists pre post st',
    args = pre ++ "-fprofile-use" :: post /\ scan st pre = Ok (Some st').
Proof.
  split.
  - apply (scan_stops_len (length args)). lia.
  - intros (pre & post & st' & -> & Hpre).
    rewrite (scan_app _ _ _ _ Hpre). apply scan_profile_use.
Qed.

Lemma str_in_In (x : string) (xs : list string) :
  str_in x xs = true -> In x xs.
Proof.
  unfold str_in. rewrite existsb_exists.
  intros (y & Hy & Heq). apply String.eqb_eq in Heq. subst y. exact Hy.
Qed.

(** What a completed loop has added to the reduced arguments and to the
    inputs: tokens of the command, in the order of the command. *)
Lemma scan_pieces_len (n : nat) :
  forall (args : list string) (st st' : scan_state),
    (length args <= n)%nat ->
    scan st args = Ok (Some st') ->
    exists r i,
      reduced_args st' = reduced_args st ++ r /\
      input st' = input st ++ i /\
      r `sublist_of` args /\ i `sublist_of` args /\
      Forall (fun x => flag_like x = false) i /\
      (need_explicit_target st' = true ->
       need_explicit_target st = true \/
       exists d, In d DEP_FLAGS /\ In d args).
Proof.
  induction n as [| n IH]; intros args st st' Hlen Hscan.
  { destruct args; [| simpl in Hlen; lia].
    cbn in Hscan. injection Hscan as ->.
    exists [], []. rewrite !app_nil_r. repeat split; auto; constructor. }
  destruct args as [| a args].
  { cbn in Hscan. injection Hscan as ->.
    exists [], []. rewrite !app_nil_r. repeat split; auto; constructor. }
  simpl in Hlen. revert Hscan.
  scan_cases a; try discriminate;
    try (destruct args as [| v args]; [discriminate |]; simpl in Hlen);
    intros Hscan; apply IH in Hscan; try lia;
    destruct Hscan as (r & i & Hr & Hi & Sr & Si & Fi & Hn);
    cbn [reduced_args input need_explicit_target] in Hr, Hi, Hn.
  - (* -c *)
    exists r, i. repeat split; auto using sublist_cons.
    intros H. destruct (Hn H) as [? | (d & ? & ?)]; [auto |].
    right. exists d. cbn [In]. auto.
  - (* -o v *)
    exists r, i. repeat split; auto using sublist_cons.
    intros H. destruct (Hn H) as [? | (d & ? & ?)]; [auto |].
    right. exists d. cbn [In]. auto.
  - (* value flag *)
    exists (a :: v :: r), i. rewrite Hr, <- app_assoc.
    repeat split; auto using sublist_cons, sublist_skip.
    intros H. destruct (Hn H) as [? | (d & ? & ?)]; [auto |].
    right. exists d. cbn [In]. auto.
  - (* -MT v *)
    exists r, i. repeat split; auto using sublist_cons.
    intros H. destruct (Hn H) as [? | (d & ? & ?)]; [auto |].
    right. exists d. cbn [In]. auto.
  - (* another flag *)
    exists (a :: r), i. rewrite Hr, <- app_assoc.
    repeat split; auto using sublist_cons, sublist_skip.
    intros H. destruct (Hn H) as [Hd | (d & ? & ?)].
    + destruct (str_in a DEP_FLAGS) eqn:Hdep; [| auto].
      right. exists a. split; [apply str_in_In, Hdep | left; reflexivity].
    + right. exists d. cbn [In]. auto.
  - (* an input *)
    exists r, (a :: i). rewrite Hi, <- app_assoc.
    repeat split; auto using sublist_cons, sublist_skip.
    intros H. destruct (Hn H) as [Hd | (d & ? & ?)].
    + destruct (str_in a DEP_FLAGS) eqn:Hdep; [| auto].
      right. exists a. split; [apply str_in_In, Hdep | left; reflexivity].
    + right. exists d. cbn [In]. auto.
Qed.

Lemma scan_pieces (args : list string) (st : scan_state) :
  scan scan_init args = Ok (Some st) ->
  reduced_args st `sublist_of` args /\
  input st `sublist_of` args /\
  Forall (fun x => flag_like x = false) (input st) /\
  (need_explicit_target st = true ->
   exists d, In d DEP_FLAGS /\ In d args).
Proof.
  intros H. apply (scan_pieces_len (length args)) in H; [| lia].
  destruct H as (r & i & Hr & Hi & Sr & Si & Fi & Hn).
  cbn in Hr, Hi, Hn. subst. repeat split; auto.
  intros H. destruct (Hn H) as [? | ?]; [discriminate | assumption].
Qed.

Lemma scan_target_len (n : nat) :
  forall (args : list string) (st st' : scan_state) (t : string),
    (length args <= n)%nat ->
    scan st args = Ok (Some st') ->
    target st' = Some t ->
    target st = Some t \/ In t args.
Proof.
  induction n as [| n IH]; intros args st st' t Hlen Hscan Ht.
  { destruct args; [| simpl in Hlen; lia].
    cbn in Hscan. injection Hscan as ->. auto. }
  destruct args as [| a args].
  { cbn in Hscan. injection Hscan as ->. auto. }
  simpl in Hlen. revert Hscan.
  scan_cases a; try discriminate;
    try (destruct args as [| v args]; [discriminate |]; simpl in Hlen);
    intros Hscan; eapply IH in Hscan; try lia; try exact Ht;
    cbn [target In] in *; destruct Hscan as [Hs | Hs]; auto.
  injection Hs as ->. auto.
Qed.

Lemma take_drop_str (n : nat) (s : string) :
  (take_str n s ++ drop_str n s)%string = s.
Proof.
  revert s. induction n as [| n IH]; intros s.
  - destruct s; reflexivity.
  - destruct s as [| c s]; [reflexivity |].
    cbn [take_str drop_str]. change (String c (take_str n s) ++ drop_str n s)%string
      with (String c (take_str n s ++ drop_str n s)%string).
    f_equal. apply IH.
Qed.

(** [root + ext == p], as the documentation of [os.path.splitext] says. *)
Lemma splitext_app (p : string) :
  (fst (splitext p) ++ snd (splitext p))%string = p.
Proof.
  assert (Hnil : forall q : string, (q ++ EmptyString)%string = q).
  { induction q as [| c q IH]; [reflexivity |].
    change (String c q ++ EmptyString)%string
      with (String c (q ++ EmptyString)%string).
    f_equal. exact IH. }
  unfold splitext.
  destruct (rfind "." p) as [dotIndex |]; cbn [fst snd]; [| apply Hnil].
  destruct (match rfind "/" p with Some sepIndex => S sepIndex | None => 0%nat end
            <=? dotIndex)%nat; cbn [fst snd]; [| apply Hnil].
  destruct (has_non_dot _ _); cbn [fst snd]; [apply take_drop_str | apply Hnil].
Qed.

Lemma FILE_TYPES_keys (k v : string) :
  FILE_TYPES !! k = Some v -> In k [".c"; ".cc"; ".cpp"; ".cxx"].
Proof.
  unfold FILE_TYPES.
  rewrite !lookup_insert_Some, lookup_empty. cbn [In].
  intuition (try discriminate; subst; auto).
Qed.

Lemma parse_arguments_inv (lk : Lookup) (program : string)
    (args : list string) (inv : invocation) :
  parse_arguments lk (program :: args) = Ok (Some inv) ->
  exists program' st,
    resolve_program lk program = Some program' /\
    scan scan_init args = Ok (Some st) /\
    classify program' args st = Some inv.
Proof.
  unfold parse_arguments.
  destruct (resolve_program lk program) as [p |]; [| discriminate].
  destruct (scan scan_init args) as [[st |] | e]; try discriminate.
  cbn. intros H. injection H as H. eauto.
Qed.

(** X3: what a successful classification returns.  The program is the
    resolved one and the argument list the original one; [-c] and [-o]
    occur in the command; the output is a non-empty token of the command;
    the input is a token of the command that is neither flag-like nor
    [-]; the reduced arguments are tokens of the command in their
    original order. *)
Theorem classified_invocation (lk : Lookup) (program : string)
    (args : list string) (inv : invocation) :
  parse_arguments lk (program :: args) = Ok (Some inv) ->
  resolve_program lk program = Some (inv_program inv) /\
  inv_args inv = args /\
  In "-c" args /\ In "-o" args /\
  In (inv_output inv) args /\ inv_output inv <> EmptyString /\
  In (inv_input inv) args /\ flag_like (inv_input inv) = false /\
  inv_input inv <> "-" /\
  inv_reduced_args inv `sublist_of` args.
Proof.
  intros H. destruct (parse_arguments_inv _ _ _ _ H) as (p & st & Hp & Hs & Hc).
  pose proof (scan_facts args st Hs) as (Fc & Fo & _ & _).
  pose proof (scan_pieces args st Hs) as (Sr & Si & Fi & _).
  unfold classify in Hc.
  destruct (compilation st) eqn:Ec; [| discriminate].
  destruct (output st) as [out |] eqn:Eo; [| discriminate].
  destruct (input st) as [| inp [| ? ?]] eqn:Ei; try discriminate.
  destruct (negb (truthy (Some out)) || (inp =? "-")) eqn:Et; [discriminate |].
  cbv zeta in Hc.
  destruct (FILE_TYPES !! snd (splitext inp)); [| discriminate].
  injection Hc as <-. cbn.
  apply orb_false_elim in Et. destruct Et as [Et1 Et2].
  destruct (Fo out eq_refl) as [Ho1 Ho2].
  repeat split; auto.
  - intros ->. discriminate Et1.
  - rewrite <- list_elem_of_In. eapply elem_of_sublist; [| exact Si].
    left.
  - inversion Fi; assumption.
  - intros ->. discriminate Et2.
Qed.

Lemma classified_invocation_witness :
  resolve_program sample_lookup "cc" = Some "/usr/bin/cc" /\
  In "a.c" ["-O2"; "-I"; "inc"; "-c"; "a.c"; "-o"; "a.o"] /\
  ["-O2"; "-I"; "inc"] `sublist_of`
    ["-O2"; "-I"; "inc"; "-c"; "a.c"; "-o"; "a.o"].
Proof.
  pose proof (classified_invocation sample_lookup "cc"
                ["-O2"; "-I"; "inc"; "-c"; "a.c"; "-o"; "a.o"]
                (mkInvocation "/usr/bin/cc" "a.c" "cpp-output" "a.o"
                   ["-O2"; "-I"; "inc"; "-c"; "a.c"; "-o"; "a.o"] []
                   ["-O2"; "-I"; "inc"]) eq_refl)
    as (H1 & _ & _ & _ & _ & _ & H2 & _ & _ & H3).
  cbn in H1, H2, H3. auto.
Defined.

(** X4: the input of a classified command is a root followed by one of
    the four recognized extensions, and the kind tag is the entry of
    [FILE_TYPES] for that extension. *)
Theorem classified_extension (lk : Lookup) (program : string)
    (args : list string) (inv : invocation) :
  parse_arguments lk (program :: args) = Ok (Some inv) ->
  exists root ext,
    inv_input inv = (root ++ ext)%string /\
    In ext [".c"; ".cc"; ".cpp"; ".cxx"] /\
    FILE_TYPES !! ext = Some (inv_file_type inv).
Proof.
  intros H. destruct (parse_arguments_inv _ _ _ _ H) as (p & st & _ & _ & Hc).
  destruct (classify_Some _ _ _ _ Hc)
    as (inp & ft & out & _ & _ & _ & Hft & ->).
  exists (fst (splitext inp)), (snd (splitext inp)). cbn.
  split; [symmetry; apply splitext_app |].
  split; [eapply FILE_TYPES_keys, Hft | exact Hft].
Qed.

Lemma classified_extension_witness :
  exists root ext,
    "src/x.tar.cxx" = (root ++ ext)%string /\
    In ext [".c"; ".cc"; ".cpp"; ".cxx"] /\
    FILE_TYPES !! ext = Some "c++-cpp-outout".
Proof.
  apply (classified_extension sample_lookup "cc"
           ["-c"; "src/x.tar.cxx"; "-o"; "x.o"]
           (mkInvocation "/usr/bin/cc" "src/x.tar.cxx" "c++-cpp-outout" "x.o"
              ["-c"; "src/x.tar.cxx"; "-o"; "x.o"] [] [])).
  reflexivity.
Defined.

(** X5: a classified command carries an [-MT] pair only if one of [-M],
    [-MM], [-MD], [-MMD] is a token of the command, and the target of the
    pair is then a non-empty token of the command (the value of an [-MT]
    or the output). *)
Theorem classified_mt (lk : Lookup) (program : string)
    (args : list string) (inv : invocation) :
  parse_arguments lk (program :: args) = Ok (Some inv) ->
  inv_mt inv = [] \/
  exists t d,
    inv_mt inv = ["-MT"; t] /\ t <> EmptyString /\ In t args /\
    In d DEP_FLAGS /\ In d args.
Proof.
  intros H. destruct (parse_arguments_inv _ _ _ _ H) as (p & st & _ & Hs & Hc).
  pose proof (scan_facts args st Hs) as (_ & Fo & _ & _).
  pose proof (scan_pieces args st Hs) as (_ & _ & _ & Hn).
  unfold classify in Hc.
  destruct (compilation st); [| discriminate].
  destruct (output st) as [out |] eqn:Eo; [| discriminate].
  destruct (input st) as [| inp [| ? ?]]; try discriminate.
  destruct (negb (truthy (Some out)) || (inp =? "-")) eqn:Et; [discriminate |].
  cbv zeta in Hc.
  destruct (FILE_TYPES !! snd (splitext inp)); [| discriminate].
  injection Hc as <-. cbn.
  destruct (need_explicit_target st); [| left; reflexivity].
  destruct (Hn eq_refl) as (d & Hd1 & Hd2).
  apply orb_false_elim in Et. destruct Et as [Et1 _].
  right. exists (target_or_output (target st) out), d.
  split; [reflexivity |]. repeat split; auto.
  - unfold target_or_output. destruct (target st) as [[| c t] |]; cbn.
    + intros ->. discriminate Et1.
    + discriminate.
    + intros ->. discriminate Et1.
  - unfold target_or_output.
    destruct (target st) as [[| c t] |] eqn:Etg; cbn;
      try (apply (Fo out eq_refl)).
    destruct (scan_target_len (length args) args scan_init st (String c t)
                (le_n _) Hs Etg) as [Hx | Hx]; [discriminate Hx | exact Hx].
Qed.

Lemma classified_mt_witness :
  [ "-MT"; "dep.o" ] = [] \/
  exists t d,
    ["-MT"; "dep.o"] = ["-MT"; t] /\ t <> EmptyString /\
    In t ["-MD"; "-MT"; "dep.o"; "-c"; "a.c"; "-o"; "a.o"] /\
    In d DEP_FLAGS /\ In d ["-MD"; "-MT"; "dep.o"; "-c"; "a.c"; "-o"; "a.o"].
Proof.
  apply (classified_mt sample_lookup "cc"
           ["-MD"; "-MT"; "dep.o"; "-c"; "a.c"; "-o"; "a.o"]
           (mkInvocation "/usr/bin/cc" "a.c" "cpp-output" "a.o"
              ["-MD"; "-MT"; "dep.o"; "-c"; "a.c"; "-o"; "a.o"]
              ["-MT"; "dep.o"] ["-MD"])).
  reflexivity.
Defined.

(** * The runs of [main], case by case *)

Section Runs.
Context {G : Gzip}.

Lemma main_compile_run (w : World) (fs : FS) (inv : invocation)
    (pp : list byte) (key : option string) (bucket : option Bucket)
    (tr : list event) :
  compile_run w fs inv pp key bucket tr
              (main_compile w fs inv pp key bucket tr).
Proof.
  unfold main_compile.
  destruct (popen w (compile_argv inv) pp fs) as [fs' [ret | e]] eqn:Hp.
  2: { eapply compile_raises; eassumption. }
  destruct (ret =? 0)%Z eqn:Hret; cbn [negb orb].
  2: { eapply compile_fails; [eassumption |]. left. apply Z.eqb_neq, Hret. }
  apply Z.eqb_eq in Hret. subst ret.
  destruct (fs_exists fs' (inv_output inv)) eqn:Hex; cbn [negb].
  2: { eapply compile_fails; [eassumption |]. right. exact Hex. }
  destruct key as [k |].
  2: { eapply compile_unbound; eauto. }
  destruct (cache_store w fs' (inv_output inv) k) as [wk |] eqn:Hcs.
  - eapply compile_stores; eauto.
  - eapply compile_blocks; eauto.
Qed.

Lemma main_lookup_run (w : World) (fs : FS) (inv : invocation)
    (pp : list byte) (tr : list event) :
  lookup_run w fs inv pp tr (main_lookup w fs inv pp tr).
Proof.
  unfold main_lookup. destruct pp as [| x pp].
  { apply lookup_skipped; [reflexivity | apply main_compile_run]. }
  assert (Hne : x :: pp <> []) by discriminate.
  destruct (hash_key (stat w) (inv_program inv) (inv_args inv) (x :: pp))
    as [key | e] eqn:Hk.
  2: { eapply lookup_no_key; eassumption. }
  destruct (environ w !! "SCCACHE_RECACHE") as [v |] eqn:Hre.
  { eapply lookup_recache; eauto using main_compile_run. }
  destruct (Bucket_get w (Bucket_init w) key) as [[c |] bucket] eqn:Hget.
  2: { eapply lookup_miss; eauto using main_compile_run. }
  destruct (dump (can_open w) c (inv_output inv) fs) as [fs' [[] | e]] eqn:Hd.
  2: { eapply lookup_hit_unreadable; eauto. }
  destruct (Bucket_get_Some _ _ _ _ _ Hget) as (y & d & ->).
  cbn [data _data]. eapply lookup_hit; eauto.
Qed.

Lemma main_main_run (w : World) (fs : FS) (command : list string) :
  main_run w fs command (main w fs command).
Proof.
  unfold main. destruct command as [| program args].
  { apply run_nothing. reflexivity. }
  assert (Hne : program :: args <> []) by discriminate.
  destruct (parse_arguments (lookup w) (program :: args))
    as [[inv |] | e] eqn:Hparse.
  - destruct (check_output w (preprocess_argv inv) fs) as [fs' [pp | e]]
      eqn:Hpp.
    + eapply run_classified; eauto using main_lookup_run.
    + destruct e; try (eapply run_preprocess_raises; eauto; discriminate).
      eapply run_preprocess_fails; eauto.
  - destruct (subprocess_call w (program :: args) fs) as [fs' res] eqn:Hc.
    pose proof (run_passthrough w fs (program :: args) fs' res Hne Hparse Hc)
      as H.
    destruct res; exact H.
  - eapply run_parse_raises; eauto.
Qed.
End Runs.

(** Splits the statement that [main] went one of the ways of [main_run]
    into these ways. *)
Ltac run_cases H :=
  destruct H;
  repeat match goal with
         | H' : lookup_run _ _ _ _ _ _ |- _ => destruct H'
         | H' : compile_run _ _ _ _ _ _ _ _ |- _ => destruct H'
         end.

Ltac in_trace :=
  repeat match goal with
         | H : In _ (_ ++ _) |- _ => apply in_app_or in H; destruct H as [H | H]
         | H : In _ (_ :: _) |- _ => destruct H as [H | H]
         | H : In _ [] |- _ => destruct H
         | H : _ = _ |- _ => discriminate H
         end.

(** A classified command whose preprocessing succeeds goes on with the
    lookup. *)
Lemma main_classified {G : Gzip} (w : World) (fs fs1 : FS)
    (command : list string) (inv : invocation) (pp : list byte) :
  parse_arguments (lookup w) command = Ok (Some inv) ->
  check_output w (preprocess_argv inv) fs = (fs1, Ok pp) ->
  main w fs command
  = main_lookup w fs1 inv pp [EvPreprocess (preprocess_argv inv)].
Proof.
  intros Hparse Hpp. unfold main.
  destruct command; [discriminate Hparse |]. rewrite Hparse, Hpp. reflexivity.
Qed.

(** Splits [main_lookup] into the ways of [lookup_run]. *)
Ltac lookup_cases w fs inv pp tr :=
  let H := fresh "H" in
  let r := fresh "r" in
  let Hr := fresh "Hr" in
  pose proof (main_lookup_run w fs inv pp tr) as H;
  remember (main_lookup w fs inv pp tr) as r eqn:Hr; clear Hr;
  destruct H;
  repeat match goal with
         | H' : compile_run _ _ _ _ _ _ _ _ |- _ => destruct H'
         end.

Section RunProperties.
Context {G : Gzip}.

(** X6: the exit code of [main] is 0 or the exit code of a process it ran:
    the original command, the preprocessor, or the compiler. *)
Theorem exit_code_provenance (w : World) (fs : FS) (command : list string)
    (code : Z) :
  result_of (main w fs command) = Return code ->
  code = 0%Z \/
  (exists fs', subprocess_call w command fs = (fs', Ok code)) \/
  (exists inv fs',
      parse_arguments (lookup w) command = Ok (Some inv) /\
      check_output w (preprocess_argv inv) fs
      = (fs', Raise (CalledProcessError code))) \/
  (exists inv fs1 pp fs2,
      parse_arguments (lookup w) command = Ok (Some inv) /\
      check_output w (preprocess_argv inv) fs = (fs1, Ok pp) /\
      popen w (compile_argv inv) pp fs1 = (fs2, Ok code)).
Proof.
  pose proof (main_main_run w fs command) as H.
  remember (main w fs command) as r eqn:Hr. clear Hr.
  run_cases H; cbn [result_of]; intros Hc;
    try discriminate Hc; try (injection Hc as <-);
    try (left; reflexivity);
    try (right; right; right; eauto 10; fail).
  - destruct res; [| discriminate Hc]. injection Hc as <-.
    right; left. eauto.
  - right; right; left. eauto.
Qed.
End RunProperties.

Lemma exit_code_provenance_witness :
  let w := sample_exit_world 1 in
  (1 = 0)%Z \/
  (exists fs', subprocess_call w ["cc"; "-c"; "a.c"] ∅ = (fs', Ok 1%Z)) \/
  (exists inv fs',
      parse_arguments (lookup w) ["cc"; "-c"; "a.c"] = Ok (Some inv) /\
      check_output w (preprocess_argv inv) ∅
      = (fs', Raise (CalledProcessError 1))) \/
  (exists inv fs1 pp fs2,
      parse_arguments (lookup w) ["cc"; "-c"; "a.c"] = Ok (Some inv) /\
      check_output w (preprocess_argv inv) ∅ = (fs1, Ok pp) /\
      popen w (compile_argv inv) pp fs1 = (fs2, Ok 1%Z)).
Proof.
  apply (exit_code_provenance (G := stored_gzip 0) (sample_exit_world 1)
           ∅ ["cc"; "-c"; "a.c"] 1%Z).
  reflexivity.
Defined.

(** X7: a store is handed over only for a command that was classified,
    whose preprocessing printed something, with the key of that output,
    after a compilation that exited 0 and left the output file. *)
Theorem store_only_after_success {G : Gzip} (w : World) (fs : FS)
    (command : list string) (o k : string) :
  In (EvSpawn o k) (trace (main w fs command)) ->
  exists inv fs1 pp fs2,
    parse_arguments (lookup w) command = Ok (Some inv) /\
    o = inv_output inv /\
    check_output w (preprocess_argv inv) fs = (fs1, Ok pp) /\
    pp <> [] /\
    hash_key (stat w) (inv_program inv) (inv_args inv) pp = Ok k /\
    popen w (compile_argv inv) pp fs1 = (fs2, Ok 0%Z) /\
    fs_exists fs2 o = true.
Proof.
  pose proof (main_main_run w fs command) as H.
  remember (main w fs command) as r eqn:Hr. clear Hr.
  run_cases H; cbn [trace]; intros Hin; in_trace;
    match goal with
    | Hs : EvSpawn _ _ = EvSpawn _ _ |- _ => injection Hs as <- <-
    end;
    match goal with
    | Hk : Some _ = Some _ |- _ => injection Hk as <-
    end;
    eauto 12.
Qed.

Lemma store_only_after_success_witness :
  exists inv fs1 pp fs2,
    parse_arguments sample_lookup sample_command = Ok (Some inv) /\
    "a.o" = inv_output inv /\
    check_output (sample_world (list_byte_of_string "int x;") UrlError (Ok tt))
                 (preprocess_argv inv) ∅ = (fs1, Ok pp) /\
    pp <> [] /\
    hash_key sample_stat (inv_program inv) (inv_args inv) pp
    = Ok "5/2/f/52fca8d74bce7e5ab6814ffc57f079ea3ad21104" /\
    sample_compiler (compile_argv inv) pp fs1 = (fs2, Ok 0%Z) /\
    fs_exists fs2 "a.o" = true.
Proof.
  apply (store_only_after_success (G := stored_gzip 0)
           (sample_world (list_byte_of_string "int x;") UrlError (Ok tt))
           ∅ sample_command "a.o"
           "5/2/f/52fca8d74bce7e5ab6814ffc57f079ea3ad21104").
  vm_compute. tauto.
Defined.

(** X8: with [SCCACHE_RECACHE] in the environment no lookup is made,
    whatever the command. *)
Theorem recache_skips_lookup {G : Gzip} (w : World) (fs : FS)
    (command : list string) (v : string) :
  environ w !! "SCCACHE_RECACHE" = Some v ->
  forall key found, ~ In (EvGet key found) (trace (main w fs command)).
Proof.
  intros Hre key found.
  pose proof (main_main_run w fs command) as H.
  remember (main w fs command) as r eqn:Hr. clear Hr.
  run_cases H; cbn [trace]; intros Hin; in_trace; congruence.
Qed.

Lemma recache_skips_lookup_witness :
  ~ In (EvGet "5/2/f/52fca8d74bce7e5ab6814ffc57f079ea3ad21104"
              (Some (mkCacheData (Some (list_byte_of_string "x")) None)))
       (trace (main (G := stored_gzip 0)
                 (sample_world_env (<["SCCACHE_RECACHE" := "1"]> ∅)
                    (list_byte_of_string "int x;")
                    (UrlBody (list_byte_of_string "x")) (Ok tt))
                 ∅ sample_command)).
Proof.
  apply (recache_skips_lookup (G := stored_gzip 0)
           (sample_world_env (<["SCCACHE_RECACHE" := "1"]> ∅)
              (list_byte_of_string "int x;")
              (UrlBody (list_byte_of_string "x")) (Ok tt))
           ∅ sample_command "1").
  reflexivity.
Defined.

(** X9: the original command is executed only when classification
    returned [None]; it is then executed as it was given, and it is the
    only step of the run. *)
Theorem passthrough_is_alone {G : Gzip} (w : World) (fs : FS)
    (command argv : list string) :
  In (EvCall argv) (trace (main w fs command)) ->
  argv = command /\
  parse_arguments (lookup w) command = Ok None /\
  trace (main w fs command) = [EvCall command] /\
  worker (main w fs command) = [].
Proof.
  pose proof (main_main_run w fs command) as H.
  remember (main w fs command) as r eqn:Hr. clear Hr.
  run_cases H; cbn [trace worker]; intros Hin; in_trace.
  injection Hin as <-. auto.
Qed.

Lemma passthrough_is_alone_witness :
  let r := main (G := stored_gzip 0) (sample_exit_world 1) ∅
                ["cc"; "a.c"; "b.c"; "-o"; "prog"] in
  ["cc"; "a.c"; "b.c"; "-o"; "prog"] = ["cc"; "a.c"; "b.c"; "-o"; "prog"] /\
  parse_arguments sample_lookup ["cc"; "a.c"; "b.c"; "-o"; "prog"] = Ok None /\
  trace r = [EvCall ["cc"; "a.c"; "b.c"; "-o"; "prog"]] /\
  worker r = [].
Proof.
  apply (passthrough_is_alone (G := stored_gzip 0) (sample_exit_world 1) ∅
           ["cc"; "a.c"; "b.c"; "-o"; "prog"]).
  left. reflexivity.
Defined.

(** X10: every compile call is made for a classified command, with the
    command line of [compile_argv], and reads on its standard input
    exactly what the preprocessing call printed. *)
Theorem compile_reads_preprocessed {G : Gzip} (w : World) (fs : FS)
    (command argv : list string) (stdin : list byte) :
  In (EvCompile argv stdin) (trace (main w fs command)) ->
  exists inv fs1,
    parse_arguments (lookup w) command = Ok (Some inv) /\
    argv = compile_argv inv /\
    check_output w (preprocess_argv inv) fs = (fs1, Ok stdin).
Proof.
  pose proof (main_main_run w fs command) as H.
  remember (main w fs command) as r eqn:Hr. clear Hr.
  run_cases H; cbn [trace]; intros Hin; in_trace;
    match goal with
    | Hs : EvCompile _ _ = EvCompile _ _ |- _ => injection Hs as <- <-
    end;
    eauto.
Qed.

Lemma compile_reads_preprocessed_witness :
  exists inv fs1,
    parse_arguments sample_lookup sample_command = Ok (Some inv) /\
    ["/usr/bin/cc"; "-c"; "-x"; "cpp-output"; "-"; "-o"; "a.o"]
    = compile_argv inv /\
    check_output (sample_world (list_byte_of_string "int x;") UrlError (Ok tt))
                 (preprocess_argv inv) ∅
    = (fs1, Ok (list_byte_of_string "int x;")).
Proof.
  apply (compile_reads_preprocessed (G := stored_gzip 0)
           (sample_world (list_byte_of_string "int x;") UrlError (Ok tt))
           ∅ sample_command).
  vm_compute. tauto.
Defined.

(** X11: the processes [main] starts in one run, in order, are none, or
    the original command alone, or, for a classified command, the
    preprocessor, then at most one compilation, then at most one worker
    of [cache_store]: never more than three, a worker only after a
    compilation, and a compilation only after the preprocessor. *)
Theorem process_starts_shape {G : Gzip} (w : World) (fs : FS)
    (command : list string) :
  let ps := List.filter starts_process (trace (main w fs command)) in
  (length ps <= 3)%nat /\
  (ps = [] \/
   ps = [EvCall command] \/
   exists inv,
     parse_arguments (lookup w) command = Ok (Some inv) /\
     (ps = [EvPreprocess (preprocess_argv inv)] \/
      exists pp,
        ps = [EvPreprocess (preprocess_argv inv);
              EvCompile (compile_argv inv) pp] \/
        exists key,
          ps = [EvPreprocess (preprocess_argv inv);
                EvCompile (compile_argv inv) pp;
                EvSpawn (inv_output inv) key])).
Proof.
  pose proof (main_main_run w fs command) as H.
  remember (main w fs command) as r eqn:Hr. clear Hr.
  run_cases H; cbn; (split; [lia | eauto 10]).
Qed.

(** X12: when the compile call exits with a non-zero code, or exits 0
    without leaving the output file, [main] writes the compilation-failed
    line last, hands nothing to a worker, and returns the compiler's exit
    code, which is 0 in the second case. *)
Theorem compile_failure {G : Gzip} (w : World) (fs fs1 fs2 : FS)
    (command : list string) (inv : invocation) (pp : list byte) (ret : Z) :
  parse_arguments (lookup w) command = Ok (Some inv) ->
  check_output w (preprocess_argv inv) fs = (fs1, Ok pp) ->
  In (EvCompile (compile_argv inv) pp) (trace (main w fs command)) ->
  popen w (compile_argv inv) pp fs1 = (fs2, Ok ret) ->
  ret <> 0%Z \/ fs_exists fs2 (inv_output inv) = false ->
  result_of (main w fs command) = Return ret /\
  files (main w fs command) = fs2 /\
  worker (main w fs command) = [] /\
  (forall o k, ~ In (EvSpawn o k) (trace (main w fs command))) /\
  exists st,
    last (trace (main w fs command))
    = Some (EvWrite (CompilationFailed (inv_output inv) st)).
Proof.
  intros Hparse Hpp. rewrite (main_classified _ _ _ _ _ _ Hparse Hpp).
  intros Hin Hpopen Hfail.
  lookup_cases w fs1 inv pp [EvPreprocess (preprocess_argv inv)];
    cbn [trace result_of files worker] in *; in_trace;
    match goal with
    | Hx : popen _ _ _ _ = _ |- _ =>
        rewrite Hpopen in Hx; injection Hx as ? ?; subst
    end;
    try (destruct Hfail; congruence);
    (split; [reflexivity |]); (split; [reflexivity |]);
    (split; [reflexivity |]);
    (split; [intros o k Hs; in_trace | eexists; rewrite last_snoc; reflexivity]).
Qed.

Lemma compile_failure_witness :
  let w := mkWorld sample_lookup sample_stat ∅
             (fun _ fs => (fs, Ok 0%Z))
             (fun _ fs => (fs, Ok (list_byte_of_string "int x;")))
             (fun _ _ fs => (fs, Ok 0%Z))
             (fun _ => UrlError) (fun _ _ _ => Ok tt) (fun _ => true) in
  let r := main (G := stored_gzip 0) w ∅ sample_command in
  result_of r = Return 0 /\
  files r = ∅ /\
  worker r = [] /\
  (forall o k, ~ In (EvSpawn o k) (trace r)) /\
  exists st, last (trace r) = Some (EvWrite (CompilationFailed "a.o" st)).
Proof.
  intros w r.
  apply (compile_failure (G := stored_gzip 0) w ∅ ∅ ∅ sample_command
           (mkInvocation "/usr/bin/cc" "a.c" "cpp-output" "a.o"
                         ["-c"; "a.c"; "-o"; "a.o"] [] [])
           (list_byte_of_string "int x;") 0%Z);
    [reflexivity | reflexivity | vm_compute; tauto | reflexivity
    | right; reflexivity].
Defined.

(** * The worker and the bucket *)

Lemma cache_store_Some {G : Gzip} (w : World) (fs : FS) (output key : string)
    (wk : list event) :
  cache_store w fs output key = Some wk ->
  exists x obj line,
    fs !! output = Some (x :: obj) /\
    wk = [EvPut key (gzip 6 (x :: obj)); EvWrite line] /\
    (line = Cached output key <->
     _name (Bucket_init w) <> EmptyString /\
     s3_put w (_name (Bucket_init w)) key (gzip 6 (x :: obj)) = Ok tt) /\
    (line = Cached output key \/
     exists st, line = FailureCaching output key st).
Proof.
  remember (_name (Bucket_init w)) as nm eqn:Hnm.
  unfold cache_store, from_object.
  destruct (fs !! output) as [[| x obj] |]; try discriminate.
  cbn. intros H. injection H as <-.
  exists x, obj. unfold do_store_upload. cbn [data _data _obj from_option bind].
  unfold Bucket_put. rewrite <- Hnm.
  destruct nm as [| c name]; cbn [truthy negb].
  { eexists. split; [reflexivity |]. split; [reflexivity |].
    split; [| right; eauto].
    split; [discriminate | intros [Hn _]; destruct (Hn eq_refl)]. }
  destruct (s3_put w (String c name) key (gzip 6 (x :: obj))) as [[] | e]
    eqn:Hput.
  { eexists. split; [reflexivity |]. split; [reflexivity |].
    split; [| left; reflexivity].
    split; [intros _; split; [discriminate | reflexivity] | reflexivity]. }
  destruct e; cbn; eexists; (split; [reflexivity |]);
    (split; [reflexivity |]);
    (split; [split; [discriminate | intros [_ Hx]; discriminate Hx]
            | right; eauto]).
Qed.

(** X13: the worker does nothing, or calls [put] once and then writes one
    line; that line says [Cached] exactly when a bucket name is set and
    the upload succeeded, and otherwise it is the failure line. *)
Theorem worker_reports_once {G : Gzip} (w : World) (fs : FS)
    (command : list string) :
  worker (main w fs command) = [] \/
  exists o k d line,
    worker (main w fs command) = [EvPut k d; EvWrite line] /\
    In (EvSpawn o k) (trace (main w fs command)) /\
    (line = Cached o k <->
     _name (Bucket_init w) <> EmptyString /\
     s3_put w (_name (Bucket_init w)) k d = Ok tt) /\
    (line = Cached o k \/ exists st, line = FailureCaching o k st).
Proof.
  pose proof (main_main_run w fs command) as H.
  remember (main w fs command) as r eqn:Hr. clear Hr.
  run_cases H; cbn [worker trace]; try (left; reflexivity);
    match goal with
    | Hc : cache_store _ _ _ _ = Some _ |- _ =>
        destruct (cache_store_Some _ _ _ _ _ Hc)
          as (x & obj & line & Hf & -> & Hiff & Hor)
    end;
    right; eexists _, _, _, line;
    (split; [reflexivity |]);
    (split; [rewrite !in_app_iff; cbn; tauto |]);
    (split; [exact Hiff | exact Hor]).
Qed.

(** X14: what the worker uploads is the compressed object file that the
    compiler left at the output path, under the key of the spawn; it is
    not empty and decompresses to that file byte for byte. *)
Theorem upload_payload {G : Gzip} (w : World) (fs : FS)
    (command : list string) (k : string) (d : list byte) :
  In (EvPut k d) (worker (main w fs command)) ->
  exists o obj,
    In (EvSpawn o k) (trace (main w fs command)) /\
    files (main w fs command) !! o = Some obj /\
    obj <> [] /\ d = gzip 6 obj /\ d <> [] /\ gunzip d = (obj, true).
Proof.
  pose proof (main_main_run w fs command) as H.
  remember (main w fs command) as r eqn:Hr. clear Hr.
  run_cases H; cbn [worker trace files]; intros Hin; in_trace;
    match goal with
    | Hc : cache_store _ _ _ _ = Some _ |- _ =>
        destruct (cache_store_Some _ _ _ _ _ Hc)
          as (x & obj & line & Hf & -> & _ & _)
    end;
    in_trace; injection Hin as <- <-;
    eexists _, (x :: obj);
    (split; [rewrite !in_app_iff; cbn; tauto |]);
    (split; [exact Hf |]); (split; [discriminate |]);
    (split; [reflexivity |]);
    (split; [apply gzip_not_nil | apply gunzip_gzip]).
Qed.

Lemma upload_payload_witness :
  let r := main (G := stored_gzip 0)
             (sample_world (list_byte_of_string "int x;") UrlError (Ok tt))
             ∅ sample_command in
  exists o obj,
    In (EvSpawn o "5/2/f/52fca8d74bce7e5ab6814ffc57f079ea3ad21104") (trace r) /\
    files r !! o = Some obj /\
    obj <> [] /\
    gzip (Gzip := stored_gzip 0) 6 (list_byte_of_string "ELF")
    = gzip (Gzip := stored_gzip 0) 6 obj /\
    gzip (Gzip := stored_gzip 0) 6 (list_byte_of_string "ELF") <> [] /\
    gunzip (Gzip := stored_gzip 0)
           (gzip (Gzip := stored_gzip 0) 6 (list_byte_of_string "ELF"))
    = (obj, true).
Proof.
  apply (upload_payload (G := stored_gzip 0)
           (sample_world (list_byte_of_string "int x;") UrlError (Ok tt))
           ∅ sample_command).
  vm_compute. tauto.
Defined.

(** The key reads of the file system only the program's modification
    time and size. *)
Lemma hash_key_same_stat (s1 s2 : Stat) (program : string)
    (args : list string) (pp : list byte) :
  getmtime_str s2 program = getmtime_str s1 program ->
  getsize s2 program = getsize s1 program ->
  hash_key s2 program args pp = hash_key s1 program args pp.
Proof. intros Hm Hs. unfold hash_key. rewrite Hm, Hs. reflexivity. Qed.

(** X15: the run that follows a run whose worker uploaded [d] under [k].
    The second run starts from the files the first one left, in a world
    [w2] in which the command is classified as before, the preprocessor
    prints what it printed before, the program file has the modification
    time and size it had, [SCCACHE_RECACHE] is not set, the output can be
    opened, and the bucket answers with [d] at the URL of [k].  Then the
    second run consists of the preprocessing call, a lookup that finds
    [d], and the line about the cache: it starts no compilation, returns
    0, and the output path holds the bytes it held after the first
    run. *)
Theorem second_run_hits {G : Gzip} (w w2 : World) (fs : FS)
    (command : list string) (inv : invocation) (k : string) (d : list byte) :
  let r1 := main w fs command in
  parse_arguments (lookup w) command = Ok (Some inv) ->
  In (EvPut k d) (worker r1) ->
  parse_arguments (lookup w2) command = Ok (Some inv) ->
  snd (check_output w2 (preprocess_argv inv) (files r1))
  = snd (check_output w (preprocess_argv inv) fs) ->
  getmtime_str (stat w2) (inv_program inv)
  = getmtime_str (stat w) (inv_program inv) ->
  getsize (stat w2) (inv_program inv) = getsize (stat w) (inv_program inv) ->
  environ w2 !! "SCCACHE_RECACHE" = None ->
  _name (Bucket_init w2) <> EmptyString ->
  urlopen w2 (bucket_url (_name (Bucket_init w2)) k) = UrlBody d ->
  can_open w2 (inv_output inv) = true ->
  let r2 := main w2 (files r1) command in
  trace r2
  = [EvPreprocess (preprocess_argv inv);
     EvGet k (Some (mkCacheData (Some d) None));
     EvWrite (UsingCache k (inv_output inv) (length d))] /\
  result_of r2 = Return 0 /\
  is_Some (files r1 !! inv_output inv) /\
  files r2 !! inv_output inv = files r1 !! inv_output inv.
Proof.
  intros r1 Hparse Hput Hparse2 Hpp2 Hmt Hsz Hre Hname Hurl Hopen r2.
  subst r1 r2.
  destruct (check_output w (preprocess_argv inv) fs) as [fs1 [pp | e]] eqn:Hpp.
  2: { exfalso. revert Hput. unfold main.
       destruct command; [discriminate Hparse |]. rewrite Hparse, Hpp.
       destruct e; cbn; tauto. }
  rewrite (main_classified _ _ _ _ _ _ Hparse Hpp) in *.
  destruct (check_output w2 (preprocess_argv inv)
              (files (main_lookup w fs1 inv pp
                        [EvPreprocess (preprocess_argv inv)])))
    as [fs1' r] eqn:Hpp2'.
  cbn [snd] in Hpp2. subst r.
  rewrite (main_classified _ _ _ _ _ _ Hparse2 Hpp2').
  revert Hpp2'.
  lookup_cases w fs1 inv pp [EvPreprocess (preprocess_argv inv)];
    cbn [worker] in Hput; try (destruct Hput; fail); try discriminate.
  all: intros Hpp2'.
  all: match goal with
       | Hkey : Some _ = Some _ |- _ => injection Hkey as <-
       end.
  all: match goal with
       | Hcs : cache_store _ _ _ _ = Some _ |- _ =>
           destruct (cache_store_Some _ _ _ _ _ Hcs)
             as (x & obj & line & Hobj & -> & _ & _)
       end.
  all: cbn [trace files] in *.
  all: destruct Hput as [Hput | [Hput | []]]; [| discriminate Hput].
  all: injection Hput as -> <-.
  all: unfold main_lookup; destruct pp as [| p0 pp]; [congruence |].
  all: rewrite (hash_key_same_stat (stat w) (stat w2) _ _ _ Hmt Hsz).
  all: match goal with
       | Hk : hash_key _ _ _ _ = Ok _ |- _ => rewrite Hk
       end.
  all: rewrite Hre; unfold Bucket_get.
  all: destruct (_name (Bucket_init w2)) as [| c name] eqn:Hn; [congruence |].
  all: cbn [truthy negb]; rewrite Hurl.
  all: destruct (gzip 6 (x :: obj)) as [| y d] eqn:Hz;
         [exfalso; exact (gzip_not_nil _ _ Hz) |].
  all: cbn [CacheData_init nonempty xorb].
  all: unfold dump; rewrite Hopen; cbn [_obj _data].
  all: rewrite <- Hz, gunzip_gzip; cbn [data _data].
  all: rewrite Hz; cbn [result_of trace files app].
  all: (split; [reflexivity |]); (split; [reflexivity |]).
  all: rewrite lookup_insert_eq, Hobj; split; [eauto | reflexivity].
Qed.

Lemma second_run_hits_witness :
  let w := sample_world (list_byte_of_string "int x;") UrlError (Ok tt) in
  let d := gzip (Gzip := stored_gzip 0) 6 (list_byte_of_string "ELF") in
  let k := "5/2/f/52fca8d74bce7e5ab6814ffc57f079ea3ad21104" in
  let w2 := with_urlopen w (fun url =>
              if url =? "http://objects.s3.amazonaws.com/" ++ k
              then UrlBody d else UrlError) in
  let r1 := main (G := stored_gzip 0) w ∅ sample_command in
  let r2 := main (G := stored_gzip 0) w2 (files r1) sample_command in
  trace r2
  = [EvPreprocess ["/usr/bin/cc"; "-E"; "a.c"];
     EvGet k (Some (mkCacheData (Some d) None));
     EvWrite (UsingCache k "a.o" (length d))] /\
  result_of r2 = Return 0 /\
  is_Some (files r1 !! "a.o") /\
  files r2 !! "a.o" = files r1 !! "a.o".
Proof.
  intros w d k w2 r1 r2.
  apply (second_run_hits (G := stored_gzip 0) w w2 ∅ sample_command
           (mkInvocation "/usr/bin/cc" "a.c" "cpp-output" "a.o"
                         ["-c"; "a.c"; "-o"; "a.o"] [] [])
           k d);
    [reflexivity | vm_compute; tauto | reflexivity | reflexivity
    | reflexivity | reflexivity | reflexivity | discriminate
    | reflexivity | reflexivity].
Defined.

(** * [CacheData], [Bucket.get] and the key *)

(** X16: [dump] touches no other path than its output.  When the output
    cannot be opened nothing changes and [IOError] is raised; when it can,
    the output exists afterwards, also when reading the compressed bytes
    fails: a failed [dump] leaves a written-over output file behind. *)
Theorem dump_frame {G : Gzip} (can_open : string -> bool) (c : CacheData)
    (output : string) (fs : FS) :
  (forall p, p <> output ->
             fst (dump can_open c output fs) !! p = fs !! p) /\
  (can_open output = false ->
   dump can_open c output fs = (fs, Raise IOError)) /\
  (can_open output = true ->
   is_Some (fst (dump can_open c output fs) !! output)).
Proof.
  unfold dump. destruct (can_open output).
  - destruct (_obj c) as [[| b obj] |]; destruct (_data c) as [d |];
      try destruct (gunzip d) as [written clean]; cbn [fst];
      (split; [intros p Hp; apply lookup_insert_ne; congruence |]);
      (split; [discriminate | intros _; rewrite lookup_insert_eq; eauto]).
  - split; [reflexivity |]. split; [reflexivity | discriminate].
Qed.

(** X17: the [data] property gives a non-empty byte string, and asking
    again gives the same bytes from the same object: the compressed form
    is computed once and kept. *)
Theorem data_is_kept {G : Gzip} (c c' : CacheData) (d : list byte) :
  data c = Ok (d, c') ->
  d <> [] /\ _data c' = Some d /\ _obj c' = _obj c /\ data c' = Ok (d, c').
Proof.
  unfold data. destruct (_data c) as [[| b l] |] eqn:Hd.
  - destruct (_obj c) as [obj |]; [| discriminate].
    cbn. intros H. injection H as <- <-. cbn.
    destruct (gzip 6 obj) as [| y z] eqn:Hz.
    + destruct (gzip_not_nil _ _ Hz).
    + repeat split; discriminate.
  - intros H. injection H as <- <-. rewrite Hd.
    repeat split; discriminate.
  - destruct (_obj c) as [obj |]; [| discriminate].
    cbn. intros H. injection H as <- <-. cbn.
    destruct (gzip 6 obj) as [| y z] eqn:Hz.
    + destruct (gzip_not_nil _ _ Hz).
    + repeat split; discriminate.
Qed.

Lemma data_is_kept_witness :
  let d := gzip (Gzip := stored_gzip 0) 6 (list_byte_of_string "ELF") in
  let c' := mkCacheData (Some d) (Some (list_byte_of_string "ELF")) in
  d <> [] /\ _data c' = Some d /\
  _obj c' = Some (list_byte_of_string "ELF") /\
  data (G := stored_gzip 0) c' = Ok (d, c').
Proof.
  apply (data_is_kept (G := stored_gzip 0)
           (mkCacheData None (Some (list_byte_of_string "ELF")))).
  reflexivity.
Defined.

(** X18: an object read from a file with [from_object] is dumped as the
    file's own bytes, without passing through the codec, also after its
    [data] has been asked for. *)
Theorem from_object_dump {G : Gzip} (can_open : string -> bool) (fs fs0 : FS)
    (path output : string) (c c' : CacheData) (d : list byte) :
  from_object fs path = Ok c ->
  data c = Ok (d, c') ->
  can_open output = true ->
  exists content,
    fs !! path = Some content /\ content <> [] /\
    dump can_open c output fs0 = (<[output := content]> fs0, Ok tt) /\
    dump can_open c' output fs0 = (<[output := content]> fs0, Ok tt).
Proof.
  unfold from_object.
  destruct (fs !! path) as [[| x obj] |]; try discriminate.
  cbn. intros H. injection H as <-. cbn.
  intros H. injection H as <- <-. intros Hopen.
  exists (x :: obj). unfold dump. rewrite Hopen. cbn.
  repeat split. discriminate.
Qed.

Lemma from_object_dump_witness :
  exists content,
    (<["a.o" := list_byte_of_string "ELF"]> ∅ : FS) !! "a.o" = Some content /\
    content <> [] /\
    dump (G := stored_gzip 0) (fun _ => true)
         (mkCacheData None (Some (list_byte_of_string "ELF"))) "b.o" ∅
    = (<["b.o" := content]> ∅, Ok tt) /\
    dump (G := stored_gzip 0) (fun _ => true)
         (mkCacheData
            (Some (gzip (Gzip := stored_gzip 0) 6 (list_byte_of_string "ELF")))
            (Some (list_byte_of_string "ELF"))) "b.o" ∅
    = (<["b.o" := content]> ∅, Ok tt).
Proof.
  apply (from_object_dump (G := stored_gzip 0) (fun _ => true)
           (<["a.o" := list_byte_of_string "ELF"]> ∅) ∅ "a.o" "b.o"
           (mkCacheData None (Some (list_byte_of_string "ELF")))
           (mkCacheData
              (Some (gzip (Gzip := stored_gzip 0) 6
                          (list_byte_of_string "ELF")))
              (Some (list_byte_of_string "ELF")))
           (gzip (Gzip := stored_gzip 0) 6 (list_byte_of_string "ELF")));
    reflexivity.
Defined.

(** X19: [Bucket.get] returns an object exactly when the bucket has a
    name and the URL [http://<name>.s3.amazonaws.com/<key>] answers with a
    non-empty body; the object then holds that body as its compressed
    data and the status is 200.  Every other answer is a miss. *)
Theorem Bucket_get_hit_iff (w : World) (b b' : Bucket) (key : string)
    (c : CacheData) :
  Bucket_get w b key = (Some c, b') <->
  _name b <> EmptyString /\
  exists x body,
    urlopen w ("http://" ++ _name b ++ ".s3.amazonaws.com/" ++ key)%string
    = UrlBody (x :: body) /\
    c = mkCacheData (Some (x :: body)) None /\
    b' = mkBucket (_name b) 200.
Proof.
  unfold Bucket_get. fold (bucket_url (_name b) key). split.
  - destruct (_name b) as [| ch nm] eqn:Hn; cbn [truthy negb];
      [discriminate |].
    destruct (urlopen w (bucket_url (String ch nm) key)) as [[| x body] | |];
      try discriminate.
    cbn. intros H. injection H as <- <-.
    split; [discriminate | eauto].
  - intros (Hn & x & body & Hu & -> & ->).
    destruct (_name b) as [| ch nm]; [congruence |].
    cbn [truthy negb]. rewrite Hu. reflexivity.
Qed.

Lemma hex_digit_is_hex (x : Z) : is_hex (SHA1.hex_digit x) = true.
Proof.
  unfold SHA1.hex_digit.
  assert (H : (0 <= Z.land x 15 < 16)%Z).
  { change 15%Z with (Z.ones 4). rewrite Z.land_ones by lia.
    apply Z.mod_pos_bound. lia. }
  assert (Hc : In (Z.land x 15)
                  [0; 1; 2; 3; 4; 5; 6; 7; 8; 9; 10; 11; 12; 13; 14; 15]%Z).
  { cbn [In]. lia. }
  cbv zeta. generalize dependent (Z.land x 15). intros d _ Hc.
  cbn [In] in Hc.
  repeat (destruct Hc as [<- | Hc]; [reflexivity |]). destruct Hc.
Qed.

Lemma hex8_shape (w : Z) (k : string) :
  String.length (SHA1.hex8 w k) = (8 + String.length k)%nat /\
  all_hex (SHA1.hex8 w k) = all_hex k.
Proof.
  unfold SHA1.hex8. cbn [String.length all_hex].
  rewrite !hex_digit_is_hex. split; reflexivity.
Qed.

Lemma hexdigest_shape (msg : list byte) :
  String.length (SHA1.hexdigest msg) = 40%nat /\
  all_hex (SHA1.hexdigest msg) = true.
Proof.
  unfold SHA1.hexdigest, SHA1.hex_of_state.
  destruct (SHA1.digest msg) as [[[[h0 h1] h2] h3] h4].
  repeat match goal with
         | |- context [SHA1.hex8 ?w ?k] =>
             let Hl := fresh in let Ha := fresh in
             destruct (hex8_shape w k) as [Hl Ha];
             rewrite ?Hl, ?Ha; clear Hl Ha;
             generalize (SHA1.hex8 w k); intros _
         end.
  split; reflexivity.
Qed.

(** X20: a key is the 40 lower-case hexadecimal digits of the digest
    behind its first three digits, each followed by a slash: 46
    characters in all.  [hash_key] gives a key whenever the modification
    time and the size of the program can be read, and only then. *)
Theorem hash_key_shape (fs : Stat) (program : string) (args : list string)
    (preprocessed : list byte) (key : string) :
  hash_key fs program args preprocessed = Ok key ->
  exists mtime size c0 c1 c2 rest,
    getmtime_str fs program = Some mtime /\
    getsize fs program = Some size /\
    SHA1.hexdigest (hash_input mtime size program args preprocessed)
    = String c0 (String c1 (String c2 rest)) /\
    key = String c0 (String "/" (String c1 (String "/" (String c2
            (String "/" (String c0 (String c1 (String c2 rest)))))))) /\
    String.length rest = 37%nat /\
    all_hex (String c0 (String c1 (String c2 rest))) = true /\
    String.length key = 46%nat.
Proof.
  intros H.
  destruct (getmtime_str fs program) as [mtime |] eqn:Hm;
    [| unfold hash_key in H; rewrite Hm in H; discriminate H].
  destruct (getsize fs program) as [size |] eqn:Hs;
    [| unfold hash_key in H; rewrite Hm, Hs in H; discriminate H].
  destruct (hash_key_ok fs program args preprocessed mtime size Hm Hs)
    as (c0 & c1 & c2 & rest & Hd & Hk).
  rewrite Hk in H. injection H as <-.
  destruct (hexdigest_shape
              (hash_input mtime size program args preprocessed)) as [Hl Ha].
  rewrite Hd in Hl, Ha. cbn [String.length] in Hl.
  exists mtime, size, c0, c1, c2, rest.
  repeat split; auto; cbn [String.length]; lia.
Qed.

Lemma hash_key_shape_witness :
  exists mtime size c0 c1 c2 rest,
    getmtime_str sample_stat "/usr/bin/cc" = Some mtime /\
    getsize sample_stat "/usr/bin/cc" = Some size /\
    SHA1.hexdigest (hash_input mtime size "/usr/bin/cc" ["-c"]
                               (list_byte_of_string "int x;"))
    = String c0 (String c1 (String c2 rest)) /\
    "5/2/f/52fca8d74bce7e5ab6814ffc57f079ea3ad21104"
    = String c0 (String "/" (String c1 (String "/" (String c2
        (String "/" (String c0 (String c1 (String c2 rest)))))))) /\
    String.length rest = 37%nat /\
    all_hex (String c0 (String c1 (String c2 rest))) = true /\
    String.length "5/2/f/52fca8d74bce7e5ab6814ffc57f079ea3ad21104" = 46%nat.
Proof.
  apply (hash_key_shape sample_stat "/usr/bin/cc" ["-c"]
           (list_byte_of_string "int x;")).
  vm_compute. reflexivity.
Defined.

(** * Properties of [Timer] *)

Module TimingFacts.
Import Timing.
Section Facts.
Context {F : Float}.
Variable clock : nat -> float.

Lemma running_insert (h : list Timer) (i : nat) (t t' : Timer) :
  h !! i = Some t ->
  (running (<[i := t']> h) + busy t = running h + busy t')%nat.
Proof.
  revert i. induction h as [| x h IH]; intros i Hi; [discriminate |].
  destruct i as [| i]; simpl in *.
  - injection Hi as ->. unfold busy.
    destruct (_current t), (_current t'); lia.
  - specialize (IH i Hi). destruct (_current x); lia.
Qed.

Lemma running_app (h1 h2 : list Timer) :
  running (h1 ++ h2) = (running h1 + running h2)%nat.
Proof.
  induction h1 as [| x h1 IH]; cbn; [reflexivity |].
  rewrite IH. destruct (_current x); lia.
Qed.

Lemma running_pos (h : list Timer) (i : nat) (t : Timer) :
  h !! i = Some t -> busy t = 1%nat -> (1 <= running h)%nat.
Proof.
  revert i. induction h as [| x h IH]; intros i Hi Hb; [discriminate |].
  destruct i as [| i]; simpl in *.
  - injection Hi as ->. unfold busy in Hb.
    destruct (_current t); [lia | discriminate].
  - specialize (IH i Hi Hb). destruct (_current x); lia.
Qed.

Lemma deref_lookup (st : state) (i : nat) :
  (i < length (heap st))%nat -> heap st !! i = Some (deref st i).
Proof.
  intros Hi. unfold deref.
  destruct (lookup_lt_is_Some_2 (heap st) i Hi) as [t ->]. reflexivity.
Qed.

Lemma deref_assign_eq (st : state) (i : nat) (t : Timer) :
  (i < length (heap st))%nat -> deref (assign st i t) i = t.
Proof.
  intros Hi. unfold deref, assign. cbn.
  rewrite list_lookup_insert_eq by exact Hi. reflexivity.
Qed.

Lemma deref_assign_ne (st : state) (i j : nat) (t : Timer) :
  i <> j -> deref (assign st i t) j = deref st j.
Proof.
  intros Hij. unfold deref, assign. cbn.
  rewrite list_lookup_insert_ne by exact Hij. reflexivity.
Qed.

Lemma keys_store (name : string) (d : float) (l : list (string * float)) :
  map fst l `prefix_of` map fst (store_timings name d l) /\
  In name (map fst (store_timings name d l)).
Proof.
  induction l as [| [k v] l [IH1 IH2]]; cbn.
  - split; [apply prefix_nil | left; reflexivity].
  - destruct (k =? name) eqn:Hk; cbn.
    + apply String.eqb_eq in Hk. split; [reflexivity | left; exact Hk].
    + split; [apply prefix_cons, IH1 | right; exact IH2].
Qed.

Lemma evolves_refl (self : nat) (st st' : state) :
  heap st' = heap st -> _stack st' = _stack st -> evolves self st st'.
Proof.
  intros Hh Hs.
  assert (Hd : forall i, deref st' i = deref st i)
    by (intros i; unfold deref; rewrite Hh; reflexivity).
  split; intros; rewrite ?Hd, ?Hh, ?Hs; try reflexivity; try lia.
  left. reflexivity.
Qed.

Lemma evolves_trans (self : nat) (st1 st2 st3 : state) :
  evolves self st1 st2 -> evolves self st2 st3 -> evolves self st1 st3.
Proof.
  intros [L1 T1 B1 K1 C1 N1 S1] [L2 T2 B2 K2 C2 N2 S2]. split.
  - congruence.
  - intros i. rewrite T2. apply T1.
  - intros i Hi. rewrite B2 by exact Hi. apply B1, Hi.
  - intros i. etransitivity; [apply K1 | apply K2].
  - intros i. destruct (C2 i) as [-> | ->]; [apply C1 | right; reflexivity].
  - lia.
  - etransitivity; eassumption.
Qed.

Lemma evolves_weaken (self child : nat) (st st' : state) :
  (self <= child)%nat -> evolves child st st' -> evolves self st st'.
Proof.
  intros Hle [L T B K C N S]. split; auto.
  intros i Hi. apply B. lia.
Qed.

(** Rewriting the object [self] without touching its references or its
    current phase, and only extending its timings. *)
Lemma evolves_assign (self : nat) (st : state) (t : Timer) :
  (self < length (heap st))%nat ->
  _timers t = _timers (deref st self) ->
  _current t = _current (deref st self) ->
  keys (deref st self) `prefix_of` keys t ->
  evolves self st (assign st self t).
Proof.
  intros Hself Ht Hc Hk. split.
  - unfold assign. cbn. apply length_insert.
  - intros i. destruct (decide (self = i)) as [<- | Hne].
    + rewrite deref_assign_eq by exact Hself. exact Ht.
    + rewrite deref_assign_ne by exact Hne. reflexivity.
  - intros i Hi. unfold assign. cbn. apply list_lookup_insert_ne. lia.
  - intros i. destruct (decide (self = i)) as [<- | Hne].
    + rewrite deref_assign_eq by exact Hself. exact Hk.
    + rewrite deref_assign_ne by exact Hne. reflexivity.
  - intros i. left. destruct (decide (self = i)) as [<- | Hne].
    + rewrite deref_assign_eq by exact Hself. exact Hc.
    + rewrite deref_assign_ne by exact Hne. reflexivity.
  - unfold assign. cbn.
    pose proof (running_insert (heap st) self (deref st self) t
                  (deref_lookup st self Hself)) as H.
    unfold busy in H. rewrite Hc in H. lia.
  - reflexivity.
Qed.

Lemma evolves_store (self : nat) (st : state) (name : string) (d : float) :
  (self < length (heap st))%nat ->
  evolves self st (_store st self name d) /\
  In name (keys (deref (_store st self name d) self)) /\
  _stop (deref (_store st self name d) self) = _stop (deref st self).
Proof.
  intros Hself. unfold _store. split; [| split].
  - apply evolves_assign; auto. apply keys_store.
  - rewrite deref_assign_eq by exact Hself. apply keys_store.
  - rewrite deref_assign_eq by exact Hself. reflexivity.
Qed.

Lemma evolves_store_same (self : nat) (st : state) (name : string)
    (d : float) :
  (self < length (heap st))%nat ->
  _current (deref (_store st self name d) self) = _current (deref st self).
Proof.
  intros Hself. unfold _store. rewrite deref_assign_eq by exact Hself.
  reflexivity.
Qed.

Lemma heap_ok_evolves (self : nat) (st st' : state) :
  evolves self st st' -> heap_ok (heap st) -> heap_ok (heap st').
Proof.
  intros [L T _ _ _ _ _] Hok i t n c Hi Hn.
  assert (Hlt : (i < length (heap st'))%nat) by (eapply lookup_lt_Some, Hi).
  rewrite L. apply (Hok i (deref st i) n c).
  - apply deref_lookup. lia.
  - rewrite <- T. unfold deref at 1. rewrite Hi. exact Hn.
Qed.

Lemma removelast_prefix (l : list nat) : removelast l `prefix_of` l.
Proof.
  induction l as [| x [| y l] IH]; [reflexivity | apply prefix_nil |].
  change (removelast (x :: y :: l)) with (x :: removelast (y :: l)).
  apply prefix_cons, IH.
Qed.

Lemma removelast_length (l : list nat) :
  l <> [] -> S (length (removelast l)) = length l.
Proof.
  induction l as [| x [| y l] IH]; [congruence | reflexivity |].
  intros _. change (removelast (x :: y :: l)) with (x :: removelast (y :: l)).
  cbn [length]. rewrite IH by discriminate. reflexivity.
Qed.

(** The end of [stop]: [self._current = None] and [Timer._stack.pop()]. *)
Lemma evolves_end (self : nat) (st : state) :
  (self < length (heap st))%nat ->
  busy (deref st self) = 1%nat ->
  _stack st <> [] ->
  let me := deref st self in
  let st' := mkState (<[self := mkTimer (_timings me) (_timers me) None
                                        (_stop me)]> (heap st))
                     (removelast (_stack st)) (ticks st) in
  evolves self st st' /\
  _current (deref st' self) = None /\
  keys (deref st' self) = keys (deref st self).
Proof.
  intros Hself Hbusy Hstack me st'.
  assert (Heq : deref st' self
                = mkTimer (_timings me) (_timers me) None (_stop me)).
  { unfold deref, st'. cbn. rewrite list_lookup_insert_eq by exact Hself.
    reflexivity. }
  assert (Hne : forall i, self <> i -> deref st' i = deref st i).
  { intros i Hi. unfold deref, st'. cbn.
    rewrite list_lookup_insert_ne by exact Hi. reflexivity. }
  split; [| rewrite Heq; split; reflexivity].
  split.
  - unfold st'. cbn. apply length_insert.
  - intros i. destruct (decide (self = i)) as [<- | Hi];
      [rewrite Heq | rewrite Hne by exact Hi]; reflexivity.
  - intros i Hi. unfold st'. cbn. apply list_lookup_insert_ne. lia.
  - intros i. destruct (decide (self = i)) as [<- | Hi];
      [rewrite Heq | rewrite Hne by exact Hi]; reflexivity.
  - intros i. destruct (decide (self = i)) as [<- | Hi];
      [rewrite Heq; right | rewrite Hne by exact Hi; left]; reflexivity.
  - unfold st'. cbn.
    pose proof (running_insert (heap st) self me
                  (mkTimer (_timings me) (_timers me) None (_stop me))
                  (deref_lookup st self Hself)) as H.
    fold me in Hbusy. rewrite Hbusy in H. unfold busy in H at 1. cbn in H.
    pose proof (removelast_length (_stack st) Hstack). lia.
  - unfold st'. cbn. apply removelast_prefix.
Qed.

(** [stop] on a created timer returns: it ends the phase of [self], if one
    is going on, and records its name. *)
Lemma stop_fuel_spec (fuel : nat) :
  forall (self : nat) (when : option float) (st : state),
    heap_ok (heap st) ->
    (self < length (heap st))%nat ->
    (length (heap st) - self < fuel)%nat ->
    (running (heap st) <= length (_stack st))%nat ->
    exists st',
      stop_fuel clock fuel self when st = Fine st' /\
      evolves self st st' /\
      _current (deref st' self) = None /\
      (forall n t, _current (deref st self) = Some (n, t) ->
                   In n (keys (deref st' self))).
Proof.
  induction fuel as [| fuel IH]; intros self when st Hok Hself Hfuel Hrun;
    [lia |].
  cbn [stop_fuel].
  (* end = when or time.time() *)
  assert (Hend : exists end_ st1,
             match when with
             | Some t => if f_bool t then (t, st) else time_time clock st
             | None => time_time clock st
             end = (end_, st1) /\
             heap st1 = heap st /\ _stack st1 = _stack st).
  { destruct when as [t |]; [destruct (f_bool t) |];
      eexists _, _; (split; [reflexivity | split; reflexivity]). }
  destruct Hend as (end_ & st1 & -> & Hh1 & Hs1).
  cbv beta iota zeta.
  pose proof (evolves_refl self st st1 Hh1 Hs1) as E1.
  assert (Hd1 : deref st1 self = deref st self)
    by (unfold deref; rewrite Hh1; reflexivity).
  assert (Hself1 : (self < length (heap st1))%nat) by (rewrite Hh1; exact Hself).
  (* if self._stop: ... self._store('other', duration) *)
  set (st2 := match _stop (deref st1 self) with
              | Some s =>
                  if f_bool s
                  then if f_ge1 (f_ms (f_sub end_ s))
                       then _store st1 self "other" (f_ms (f_sub end_ s))
                       else st1
                  else st1
              | None => st1
              end).
  assert (H2 : evolves self st1 st2 /\
               _current (deref st2 self) = _current (deref st1 self)).
  { unfold st2. destruct (_stop (deref st1 self)) as [s |];
      [destruct (f_bool s); [destruct (f_ge1 (f_ms (f_sub end_ s))) |] |];
      try (split; [apply evolves_refl; reflexivity | reflexivity]).
    split; [apply evolves_store, Hself1 | apply evolves_store_same, Hself1]. }
  destruct H2 as [E2 Hc2]. clearbody st2.
  pose proof (evolves_trans _ _ _ _ E1 E2) as E02.
  assert (Hself2 : (self < length (heap st2))%nat)
    by (rewrite (ev_length _ _ _ E2); exact Hself1).
  destruct (_current (deref st2 self)) as [[n t] |] eqn:Hcur.
  2: { exists st2. split; [reflexivity |]. split; [exact E02 |].
       split; [exact Hcur |]. intros n t Hn. congruence. }
  (* self._stop = end; self._store(n, duration) *)
  set (st3 := assign st2 self
                (mkTimer (_timings (deref st2 self)) (_timers (deref st2 self))
                         (Some (n, t)) (Some end_))).
  assert (E3 : evolves self st2 st3)
    by (apply evolves_assign;
        [exact Hself2 | reflexivity | symmetry; exact Hcur | reflexivity]).
  assert (Hself3 : (self < length (heap st3))%nat)
    by (rewrite (ev_length _ _ _ E3); exact Hself2).
  assert (Hc3 : _current (deref st3 self) = Some (n, t)).
  { unfold st3. rewrite deref_assign_eq by exact Hself2. reflexivity. }
  clearbody st3.
  set (st4 := _store st3 self n (f_ms (f_sub end_ t))).
  destruct (evolves_store self st3 n (f_ms (f_sub end_ t)) Hself3)
    as (E4 & Hkey4 & _).
  pose proof (evolves_store_same self st3 n (f_ms (f_sub end_ t)) Hself3)
    as Hc4.
  fold st4 in E4, Hkey4, Hc4. rewrite Hc3 in Hc4. clearbody st4.
  pose proof (evolves_trans _ _ _ _ E02 (evolves_trans _ _ _ _ E3 E4)) as E04.
  assert (Hself4 : (self < length (heap st4))%nat)
    by (rewrite (ev_length _ _ _ E04); exact Hself).
  pose proof (heap_ok_evolves _ _ _ E04 Hok) as Hok4.
  (* if n in self._timers: self._timers[n].stop(end) *)
  assert (Hinner : exists st5,
             match _timers (deref st4 self) !! n with
             | Some child => stop_fuel clock fuel child (Some end_) st4
             | None => Fine st4
             end = Fine st5 /\
             evolves self st4 st5 /\ deref st5 self = deref st4 self).
  { destruct (_timers (deref st4 self) !! n) as [child |] eqn:Hch.
    - destruct (Hok4 self (deref st4 self) n child
                  (deref_lookup st4 self Hself4) Hch) as [Hlt Hlen].
      destruct (IH child (Some end_) st4 Hok4 Hlen) as (st5 & -> & E5 & _ & _).
      + rewrite (ev_length _ _ _ E04). lia.
      + pose proof (ev_count _ _ _ E04). lia.
      + exists st5. split; [reflexivity |].
        split; [apply (evolves_weaken self child); [lia | exact E5] |].
        unfold deref. rewrite (ev_before _ _ _ E5 self Hlt). reflexivity.
    - exists st4. split; [reflexivity |].
      split; [apply evolves_refl; reflexivity | reflexivity]. }
  destruct Hinner as (st5 & -> & E5 & Hd5).
  pose proof (evolves_trans _ _ _ _ E04 E5) as E05.
  assert (Hself5 : (self < length (heap st5))%nat)
    by (rewrite (ev_length _ _ _ E05); exact Hself).
  assert (Hbusy : busy (deref st5 self) = 1%nat)
    by (unfold busy; rewrite Hd5, Hc4; reflexivity).
  assert (Hstack : _stack st5 <> []).
  { pose proof (running_pos (heap st5) self (deref st5 self)
                  (deref_lookup st5 self Hself5) Hbusy).
    pose proof (ev_count _ _ _ E05).
    destruct (_stack st5); [cbn in *; lia | discriminate]. }
  destruct (evolves_end self st5 Hself5 Hbusy Hstack) as (E6 & Hc6 & Hk6).
  cbv zeta in E6, Hc6, Hk6.
  unfold assign. cbn [heap _stack ticks].
  destruct (_stack st5) as [| top rest] eqn:Hst; [congruence |].
  eexists. split; [reflexivity |].
  split; [exact (evolves_trans _ _ _ _ E05 E6) |].
  split; [exact Hc6 |].
  intros n' t' Hn'. rewrite Hk6, Hd5.
  assert (n' = n) by congruence. subst n'. exact Hkey4.
Qed.

Lemma inv_initial : inv initial.
Proof. split; [intros i t n c Hi; discriminate Hi | cbn; lia]. Qed.

Lemma inv_evolves (self : nat) (st st' : state) :
  evolves self st st' -> inv st -> inv st'.
Proof.
  intros E [Hok Hrun]. split; [eapply heap_ok_evolves; eassumption |].
  pose proof (ev_count _ _ _ E). lia.
Qed.

Lemma stop_spec (self : nat) (when : option float) (st : state) :
  inv st ->
  (self < length (heap st))%nat ->
  exists st',
    stop clock self when st = Fine st' /\
    evolves self st st' /\ inv st' /\
    _current (deref st' self) = None /\
    (forall n t, _current (deref st self) = Some (n, t) ->
                 In n (keys (deref st' self))).
Proof.
  intros [Hok Hrun] Hself. unfold stop.
  destruct (stop_fuel_spec (S (length (heap st))) self when st Hok Hself)
    as (st' & Hs & E & Hc & Hk); [lia | exact Hrun |].
  exists st'. split; [exact Hs |]. split; [exact E |].
  split; [eapply inv_evolves; [exact E | split; assumption] | auto].
Qed.

Lemma last_snoc_nat (l : list nat) (x : nat) : last (l ++ [x]) = Some x.
Proof. apply last_snoc. Qed.

Lemma start_spec (self : nat) (name : string) (st : state) :
  inv st ->
  (self < length (heap st))%nat ->
  exists st',
    start clock self name st = Fine st' /\
    inv st' /\
    length (heap st') = length (heap st) /\
    current st' = Some self /\
    _current (deref st' self) = Some (name, clock (ticks st)) /\
    _stop (deref st' self) = None /\
    (forall i, _timers (deref st' i) = _timers (deref st i)) /\
    (forall i, keys (deref st i) `prefix_of` keys (deref st' i)) /\
    (forall n t, _current (deref st self) = Some (n, t) ->
                 In n (keys (deref st' self))) /\
    (exists below, below `prefix_of` _stack st /\
                   _stack st' = below ++ [self]).
Proof.
  intros Hinv Hself. unfold start, time_time.
  set (st0 := mkState (heap st) (_stack st) (S (ticks st))).
  assert (Hinv0 : inv st0) by exact Hinv.
  destruct (stop_spec self (Some (clock (ticks st))) st0 Hinv0 Hself)
    as (st1 & -> & E & [Hok1 Hrun1] & Hc1 & Hk1).
  assert (Hself1 : (self < length (heap st1))%nat)
    by (rewrite (ev_length _ _ _ E); exact Hself).
  set (t' := mkTimer (_timings (deref st1 self)) (_timers (deref st1 self))
                     (Some (name, clock (ticks st))) None).
  set (st2 := assign st1 self t').
  assert (Hd2 : deref st2 self = t')
    by (apply deref_assign_eq, Hself1).
  assert (Hne : forall i, self <> i -> deref st2 i = deref st1 i)
    by (intros i Hi; apply deref_assign_ne, Hi).
  assert (Hd0 : forall i, deref st0 i = deref st i) by reflexivity.
  eexists. split; [reflexivity |]. cbn [heap _stack ticks].
  assert (Hlen : length (heap st2) = length (heap st)).
  { unfold st2, assign. cbn. rewrite length_insert. apply (ev_length _ _ _ E). }
  assert (Htim : forall i, _timers (deref st2 i) = _timers (deref st i)).
  { intros i. rewrite <- Hd0, <- (ev_timers _ _ _ E).
    destruct (decide (self = i)) as [<- | Hi];
      [rewrite Hd2 | rewrite Hne by exact Hi]; reflexivity. }
  split; [| split; [exact Hlen |]].
  { split.
    - intros i t n c Hi Hn.
      assert (Hlt : (i < length (heap st2))%nat) by (eapply lookup_lt_Some, Hi).
      cbn [heap]. rewrite Hlen. apply (proj1 Hinv i (deref st i) n c).
      + apply deref_lookup. lia.
      + rewrite <- Htim. unfold deref at 1. cbn [heap] in Hi. rewrite Hi.
        exact Hn.
    - cbn [heap _stack]. rewrite length_app. cbn [length].
      unfold st2, assign. cbn [heap _stack].
      pose proof (running_insert (heap st1) self (deref st1 self) t'
                    (deref_lookup st1 self Hself1)) as H.
      unfold busy in H. rewrite Hc1 in H. cbn in H. lia. }
  split; [apply last_snoc |].
  assert (Hd : forall i, deref (mkState (heap st2) (_stack st2 ++ [self])
                                        (ticks st2)) i = deref st2 i)
    by reflexivity.
  rewrite !Hd, Hd2. cbn [_current _stop].
  split; [reflexivity |]. split; [reflexivity |].
  split; [intros i; rewrite Hd; apply Htim |].
  split.
  { intros i. rewrite Hd, <- Hd0.
    etransitivity; [apply (ev_keys _ _ _ E) |].
    destruct (decide (self = i)) as [<- | Hi];
      [rewrite Hd2 | rewrite Hne by exact Hi]; reflexivity. }
  split.
  { intros n t Hn. apply (Hk1 n t). rewrite Hd0. exact Hn. }
  exists (_stack st1). split; [apply (ev_stack _ _ _ E) | reflexivity].
Qed.

Lemma start_group_spec (self : nat) (name : string) (st : state) :
  inv st ->
  (self < length (heap st))%nat ->
  exists st',
    start_group clock self name st = Fine st' /\
    inv st' /\
    length (heap st') = S (length (heap st)) /\
    current st' = Some (length (heap st)) /\
    deref st' (length (heap st)) = Timer_init /\
    _timers (deref st' self) !! name = Some (length (heap st)) /\
    _current (deref st' self) = Some (name, clock (ticks st)) /\
    (forall i, keys (deref st i) `prefix_of` keys (deref st' i)) /\
    (exists below, below `prefix_of` _stack st /\
                   _stack st' = below ++ [self; length (heap st)]).
Proof.
  intros Hinv Hself. unfold start_group.
  destruct (start_spec self name st Hinv Hself)
    as (st1 & -> & [Hok1 Hrun1] & Hlen1 & _ & Hc1 & _ & _ & Hk1 & _
        & (below & Hbelow & Hst1)).
  unfold Timer_new. cbv beta iota zeta.
  set (h1 := heap st1 ++ [Timer_init]).
  set (st2 := mkState h1 (_stack st1) (ticks st1)).
  assert (Hself1 : (self < length (heap st1))%nat) by lia.
  assert (Hd2 : forall i, (i < length (heap st1))%nat ->
                          deref st2 i = deref st1 i).
  { intros i Hi. unfold deref, st2, h1. cbn [heap].
    rewrite lookup_app_l by exact Hi. reflexivity. }
  assert (Hnew : deref st2 (length (heap st1)) = Timer_init).
  { unfold deref, st2, h1. cbn [heap].
    rewrite lookup_app_r by lia. rewrite Nat.sub_diag. reflexivity. }
  assert (Hl2 : length h1 = S (length (heap st1))).
  { unfold h1. rewrite length_app. cbn. lia. }
  set (me' := mkTimer (_timings (deref st2 self))
                      (<[name := length (heap st1)]> (_timers (deref st2 self)))
                      (_current (deref st2 self)) (_stop (deref st2 self))).
  assert (Hself2 : (self < length (heap st2))%nat)
    by (unfold st2; cbn [heap]; lia).
  set (st3 := assign st2 self me').
  assert (Hd3 : deref st3 self = me') by (apply deref_assign_eq, Hself2).
  assert (Hne3 : forall i, self <> i -> deref st3 i = deref st2 i)
    by (intros i Hi; apply deref_assign_ne, Hi).
  assert (Hl3 : length (heap st3) = S (length (heap st1))).
  { unfold st3, assign. cbn [heap]. rewrite length_insert. exact Hl2. }
  eexists. split; [reflexivity |].
  assert (Hd : forall i, deref (mkState (heap st3) (_stack st3 ++ [length (heap st1)])
                                        (ticks st3)) i = deref st3 i)
    by reflexivity.
  cbn [heap _stack]. rewrite !Hd, <- Hlen1.
  split.
  { split.
    - cbn [heap]. intros i t n c Hi Hn. rewrite Hl3.
      assert (Hlt : (i < length (heap st3))%nat) by (eapply lookup_lt_Some, Hi).
      assert (Ht : t = deref st3 i) by (unfold deref; rewrite Hi; reflexivity).
      subst t. destruct (decide (self = i)) as [<- | Hi'].
      + rewrite Hd3 in Hn. unfold me' in Hn. cbn [_timers] in Hn.
        apply lookup_insert_Some in Hn. destruct Hn as [[_ <-] | [_ Hn]];
          [lia |].
        rewrite Hd2 in Hn by exact Hself1.
        pose proof (Hok1 self (deref st1 self) n c
                      (deref_lookup st1 self Hself1) Hn). lia.
      + rewrite Hne3 in Hn by exact Hi'.
        destruct (decide (i = length (heap st1))) as [-> | Hi''].
        * rewrite Hnew in Hn. discriminate Hn.
        * assert (Hi1 : (i < length (heap st1))%nat) by lia.
          rewrite Hd2 in Hn by exact Hi1.
          pose proof (Hok1 i (deref st1 i) n c (deref_lookup st1 i Hi1) Hn).
          lia.
    - cbn [heap _stack]. rewrite length_app. cbn [length].
      unfold st3, assign. cbn [heap _stack].
      pose proof (running_insert h1 self (deref st2 self) me'
                    (deref_lookup st2 self Hself2)) as H.
      unfold busy in H. cbn [_current me'] in H.
      assert (Hr : running h1 = running (heap st1))
        by (unfold h1; rewrite running_app; cbn; lia).
      destruct (_current (deref st2 self)); unfold st2 in *;
        cbn [heap _stack]; lia. }
  split; [exact Hl3 |].
  split; [apply last_snoc |].
  split; [rewrite Hne3 by lia; exact Hnew |].
  split; [rewrite Hd3; unfold me'; cbn [_timers]; apply lookup_insert_eq |].
  split; [rewrite Hd3; unfold me'; cbn [_current];
          rewrite Hd2 by exact Hself1; exact Hc1 |].
  split.
  { intros i. rewrite Hd. etransitivity; [apply Hk1 |].
    destruct (decide (i < length (heap st1))%nat) as [Hi | Hi].
    - destruct (decide (self = i)) as [<- | Hi'].
      + rewrite Hd3. unfold keys, me'. cbn [_timings].
        rewrite Hd2 by exact Hself1. reflexivity.
      + rewrite Hne3 by exact Hi'. rewrite Hd2 by exact Hi. reflexivity.
    - assert (Hz : deref st1 i = Timer_init).
      { unfold deref. rewrite lookup_ge_None_2 by lia. reflexivity. }
      rewrite Hz. apply prefix_nil. }
  exists below. split; [exact Hbelow |].
  unfold st3, assign, st2. cbn [_stack]. rewrite Hst1, <- app_assoc.
  reflexivity.
Qed.

(** Any program of calls, started with no timer at all, runs to its end. *)
Lemma do_call_spec (c : call) (st : state) :
  inv st ->
  exists st',
    do_call clock c st = Fine st' /\ inv st' /\
    (length (heap st) <= length (heap st'))%nat /\
    (forall i, keys (deref st i) `prefix_of` keys (deref st' i)).
Proof.
  intros Hinv. destruct c as [| self name | self name | self when];
    cbn [do_call].
  - eexists. split; [reflexivity |]. unfold Timer_new. cbn [snd heap _stack].
    destruct Hinv as [Hok Hrun].
    split; [split; cbn [heap _stack] |].
    + intros i t n c Hi Hn. rewrite length_app. cbn [length].
      destruct (decide (i < length (heap st))%nat) as [Hlt | Hge].
      * rewrite lookup_app_l in Hi by exact Hlt.
        pose proof (Hok i t n c Hi Hn). lia.
      * rewrite lookup_app_r in Hi by lia.
        destruct (i - length (heap st))%nat; [| discriminate Hi].
        injection Hi as <-. discriminate Hn.
    + rewrite running_app. cbn. lia.
    + split; [rewrite length_app; lia |].
      intros i. unfold deref. cbn [heap].
      destruct (decide (i < length (heap st))%nat) as [Hlt | Hge].
      * rewrite lookup_app_l by exact Hlt. reflexivity.
      * rewrite (lookup_ge_None_2 (heap st)) by lia. apply prefix_nil.
  - destruct (Nat.ltb_spec self (length (heap st))) as [Hlt | Hge].
    + destruct (start_spec self name st Hinv Hlt)
        as (st' & -> & Hi' & Hl & _ & _ & _ & _ & Hk & _).
      exists st'. split; [reflexivity |]. split; [exact Hi' |].
      split; [lia | exact Hk].
    + exists st. split; [reflexivity |]. split; [exact Hinv |].
      split; [lia | reflexivity].
  - destruct (Nat.ltb_spec self (length (heap st))) as [Hlt | Hge].
    + destruct (start_group_spec self name st Hinv Hlt)
        as (st' & -> & Hi' & Hl & _ & _ & _ & _ & Hk & _).
      exists st'. split; [reflexivity |]. split; [exact Hi' |].
      split; [lia | exact Hk].
    + exists st. split; [reflexivity |]. split; [exact Hinv |].
      split; [lia | reflexivity].
  - destruct (Nat.ltb_spec self (length (heap st))) as [Hlt | Hge].
    + destruct (stop_spec self when st Hinv Hlt)
        as (st' & -> & E & Hi' & _ & _).
      exists st'. split; [reflexivity |]. split; [exact Hi' |].
      split; [rewrite (ev_length _ _ _ E); lia | apply (ev_keys _ _ _ E)].
    + exists st. split; [reflexivity |]. split; [exact Hinv |].
      split; [lia | reflexivity].
Qed.

Lemma do_calls_spec (cs : list call) :
  forall st,
    inv st ->
    exists st',
      do_calls clock cs st = Fine st' /\ inv st' /\
      (length (heap st) <= length (heap st'))%nat /\
      (forall i, keys (deref st i) `prefix_of` keys (deref st' i)).
Proof.
  induction cs as [| c cs IH]; intros st Hinv; cbn [do_calls].
  - exists st. split; [reflexivity |]. split; [exact Hinv |].
    split; [lia | reflexivity].
  - destruct (do_call_spec c st Hinv) as (st1 & -> & Hinv1 & Hl1 & Hk1).
    destruct (IH st1 Hinv1) as (st2 & -> & Hinv2 & Hl2 & Hk2).
    exists st2. split; [reflexivity |]. split; [exact Hinv2 |].
    split; [lia |].
    intros i. etransitivity; [apply Hk1 | apply Hk2].
Qed.
End Facts.
End TimingFacts.

(** X21: whatever calls of [Timer()], [start], [start_group] and [stop]
    a program makes, with whatever clock, each call returns: [stop] never
    pops an empty stack, and the calls of [stop] on the timers of a group
    come to an end.  The stack always has at least as many entries as
    there are phases going on. *)
Theorem timer_calls_return {F : Float} (clock : nat -> float)
    (cs : list Timing.call) :
  exists st,
    Timing.do_calls clock cs Timing.initial = Timing.Fine st /\
    (Timing.running (Timing.heap st) <= length (Timing._stack st))%nat.
Proof.
  destruct (TimingFacts.do_calls_spec clock cs Timing.initial
              (TimingFacts.inv_initial))
    as (st & Hs & [_ Hrun] & _).
  exists st. split; [exact Hs | exact Hrun].
Qed.

(** X22: in a state reached by such calls, [start] on a created timer
    makes it the current timer, begins the named phase at the time read on
    entry with no stop time, and the phase that was going on in that
    timer, if any, has its name among the timings. *)
Theorem start_makes_current {F : Float} (clock : nat -> float)
    (cs : list Timing.call) (st : Timing.state) (self : nat)
    (name : string) :
  Timing.do_calls clock cs Timing.initial = Timing.Fine st ->
  (self < length (Timing.heap st))%nat ->
  exists st',
    Timing.start clock self name st = Timing.Fine st' /\
    Timing.current st' = Some self /\
    Timing._current (Timing.deref st' self)
    = Some (name, clock (Timing.ticks st)) /\
    Timing._stop (Timing.deref st' self) = None /\
    (forall n t,
        Timing._current (Timing.deref st self) = Some (n, t) ->
        In n (Timing.keys (Timing.deref st' self))).
Proof.
  intros Hreach Hself.
  destruct (TimingFacts.do_calls_spec clock cs Timing.initial
              (TimingFacts.inv_initial))
    as (st0 & Hs & Hinv & _).
  rewrite Hreach in Hs. injection Hs as <-.
  destruct (TimingFacts.start_spec clock self name st Hinv Hself)
    as (st' & H1 & _ & _ & H2 & H3 & H4 & _ & _ & H5 & _).
  exists st'. auto.
Qed.

Lemma start_makes_current_witness :
  exists st',
    Timing.start (F := zfloat) (fun n => Z.of_nat (S n)) 0 "pp"
      (Timing.mkState
         [Timing.mkTimer (F := zfloat) [] ∅ (Some ("args", 1%Z)) None]
         [0%nat] 1)
    = Timing.Fine st' /\
    Timing.current st' = Some 0%nat /\
    Timing._current (Timing.deref st' 0) = Some ("pp", 2%Z) /\
    Timing._stop (Timing.deref st' 0) = None /\
    (forall n t,
        Timing._current (Timing.mkTimer (F := zfloat) [] ∅
                           (Some ("args", 1%Z)) None) = Some (n, t) ->
        In n (Timing.keys (Timing.deref st' 0))).
Proof.
  apply (start_makes_current (F := zfloat) (fun n => Z.of_nat (S n))
           [Timing.CallNew; Timing.CallStart 0 "args"]).
  - reflexivity.
  - cbn. lia.
Defined.

(** X23: in a state reached by such calls, [start_group] on a created
    timer returns a new timer with no timings, registers it under the
    name in [_timers], and leaves it as the current timer, on top of the
    timer of the group. *)
Theorem start_group_makes_child_current {F : Float} (clock : nat -> float)
    (cs : list Timing.call) (st : Timing.state) (self : nat)
    (name : string) :
  Timing.do_calls clock cs Timing.initial = Timing.Fine st ->
  (self < length (Timing.heap st))%nat ->
  exists st',
    let child := length (Timing.heap st) in
    Timing.start_group clock self name st = Timing.Fine st' /\
    length (Timing.heap st') = S child /\
    Timing.current st' = Some child /\
    Timing.deref st' child = Timing.Timer_init /\
    Timing._timers (Timing.deref st' self) !! name = Some child /\
    Timing._current (Timing.deref st' self)
    = Some (name, clock (Timing.ticks st)) /\
    exists below,
      below `prefix_of` Timing._stack st /\
      Timing._stack st' = below ++ [self; child].
Proof.
  intros Hreach Hself.
  destruct (TimingFacts.do_calls_spec clock cs Timing.initial
              (TimingFacts.inv_initial))
    as (st0 & Hs & Hinv & _).
  rewrite Hreach in Hs. injection Hs as <-.
  destruct (TimingFacts.start_group_spec clock self name st Hinv Hself)
    as (st' & H1 & _ & H2 & H3 & H4 & H5 & H6 & _ & H7).
  exists st'. cbv zeta. auto 10.
Qed.

Lemma start_group_makes_child_current_witness :
  exists st',
    let child := 1%nat in
    Timing.start_group (F := zfloat) (fun n => Z.of_nat (S n)) 0 "get"
      (Timing.mkState [Timing.Timer_init] [] 0)
    = Timing.Fine st' /\
    length (Timing.heap st') = S child /\
    Timing.current st' = Some child /\
    Timing.deref st' child = Timing.Timer_init /\
    Timing._timers (Timing.deref st' 0) !! "get" = Some child /\
    Timing._current (Timing.deref st' 0) = Some ("get", 1%Z) /\
    exists below,
      below `prefix_of` [] /\
      Timing._stack st' = below ++ [0%nat; child].
Proof.
  apply (start_group_makes_child_current (F := zfloat)
           (fun n => Z.of_nat (S n)) [Timing.CallNew]).
  - reflexivity.
  - cbn. lia.
Defined.

(** X24: the names of a timer's timings are never removed or reordered:
    after any further calls, the names it had are the first names it
    has. *)
Theorem timings_keep_order {F : Float} (clock : nat -> float)
    (cs cs' : list Timing.call) (st st' : Timing.state) (i : nat) :
  Timing.do_calls clock cs Timing.initial = Timing.Fine st ->
  Timing.do_calls clock cs' st = Timing.Fine st' ->
  Timing.keys (Timing.deref st i) `prefix_of`
    Timing.keys (Timing.deref st' i).
Proof.
  intros Hreach Hnext.
  destruct (TimingFacts.do_calls_spec clock cs Timing.initial
              (TimingFacts.inv_initial))
    as (st0 & Hs & Hinv & _).
  rewrite Hreach in Hs. injection Hs as <-.
  destruct (TimingFacts.do_calls_spec clock cs' st Hinv)
    as (st1 & Hs & _ & _ & Hk).
  rewrite Hnext in Hs. injection Hs as <-. apply Hk.
Qed.

Lemma timings_keep_order_witness :
  ["args"] `prefix_of` ["args"; "pp"].
Proof.
  apply (timings_keep_order (F := zfloat) (fun n => Z.of_nat (S n))
           [Timing.CallNew; Timing.CallStart 0 "args"; Timing.CallStart 0 "pp"]
           [Timing.CallStop 0 None]
           (Timing.mkState
              [Timing.mkTimer (F := zfloat) [("args", 1000%Z)] ∅
                              (Some ("pp", 2%Z)) None]
              [0%nat] 2)
           (Timing.mkState
              [Timing.mkTimer (F := zfloat)
                              [("args", 1000%Z); ("pp", 1000%Z)] ∅ None
                              (Some 3%Z)]
              [] 3)
           0); reflexivity.
Defined.

Lemma getitem_store_timings {F : Float} (name name' : string) (d : float)
    (l : list (string * float)) :
  Timing.getitem (Timing.store_timings name d l) name'
  = if name' =? name
    then Some (match Timing.getitem l name with
               | Some v => f_add v d
               | None => d
               end)
    else Timing.getitem l name'.
Proof.
  induction l as [| [k v] l IH]; cbn [Timing.store_timings Timing.getitem].
  - rewrite (String.eqb_sym name name').
    destruct (name' =? name); reflexivity.
  - destruct (k =? name) eqn:Hk; cbn [Timing.getitem].
    + apply String.eqb_eq in Hk. subst k.
      rewrite (String.eqb_sym name name').
      destruct (name' =? name); reflexivity.
    + rewrite IH. destruct (name' =? name) eqn:Hn.
      * apply String.eqb_eq in Hn. subst name'. rewrite Hk. reflexivity.
      * reflexivity.
Qed.

Lemma keys_store_timings {F : Float} (name : string) (d : float)
    (l : list (string * float)) :
  map fst (Timing.store_timings name d l)
  = match Timing.getitem l name with
    | Some _ => map fst l
    | None => map fst l ++ [name]
    end.
Proof.
  induction l as [| [k v] l IH]; cbn [Timing.store_timings Timing.getitem];
    [reflexivity |].
  destruct (k =? name) eqn:Hk; [reflexivity |].
  cbn [map fst]. rewrite IH. destruct (Timing.getitem l name); reflexivity.
Qed.

(** X25: [_store] followed by [__getitem__].  A name that already has a
    timing keeps its place and its value grows by the duration; a new name
    goes to the end with the duration as its value; the timings of the
    other names are what they were. *)
Theorem store_then_getitem {F : Float} (st : Timing.state) (self : nat)
    (name name' : string) (d : float) :
  (self < length (Timing.heap st))%nat ->
  let before := Timing.deref st self in
  let after := Timing.deref (Timing._store st self name d) self in
  Timing.getitem (Timing._timings after) name'
  = (if name' =? name
     then Some (match Timing.getitem (Timing._timings before) name with
                | Some v => f_add v d
                | None => d
                end)
     else Timing.getitem (Timing._timings before) name') /\
  Timing.keys after
  = match Timing.getitem (Timing._timings before) name with
    | Some _ => Timing.keys before
    | None => Timing.keys before ++ [name]
    end.
Proof.
  intros Hself before after. unfold after, Timing._store.
  rewrite TimingFacts.deref_assign_eq by exact Hself.
  unfold Timing.keys. cbn [Timing._timings]. fold before.
  split; [apply getitem_store_timings | apply keys_store_timings].
Qed.

Lemma store_then_getitem_witness :
  let st := Timing.mkState
              [Timing.mkTimer (F := zfloat) [("dns", 3%Z); ("conn", 4%Z)] ∅
                              None None] [] 0 in
  let after := Timing.deref (Timing._store st 0 "dns" 5%Z) 0 in
  Timing.getitem (Timing._timings after) "dns" = Some 8%Z /\
  Timing.keys after = ["dns"; "conn"].
Proof.
  intros st after.
  apply (store_then_getitem (F := zfloat) st 0 "dns" "dns" 5%Z).
  cbn. lia.
Defined.
